(** * tab::ObjectPool<T, BlockCap> (ObjectPool.hpp): a shallow embedding

    The pool is a singly linked list of [MemoryBlock]s, newest first.  Every
    block carries an intrusive free list threaded through the [next] fields
    of its [units].  The embedding keeps the data of the C++ class:

    - [size_t] values are [Z] reduced modulo 2^64 ([to_size]);
    - [unit_index_t] values are [Z] reduced to the signed range of the index
      type selected by [BlockCap] ([to_idx]);
    - pointers are byte addresses in [Z]; the linked list of blocks owned by
      [first_] is a Rocq list of blocks, each with the address [operator new]
      gave it;
    - [operator new] / [operator delete] are an interface ([Allocator]) that
      may fail ([std::bad_alloc]);
    - behaviour the C++ standard leaves undefined (null dereference, an array
      index out of range, subtraction of pointers that are not elements of
      one array) is the result [Undefined].

    Sizes follow the LP64 data model (pointers and [long] are 8 bytes) and
    [char] is signed, as on x86-64 Linux. *)

From Stdlib Require Import ZArith Lia.
From stdpp Require Import base tactics option list numbers.

Local Open Scope Z_scope.

(** ** Template parameters and the free store *)

(** [template <typename T, size_t BlockCap>], with [sizeof(T)]. *)
Class PoolParams := {
  T : Type;
  BlockCap : Z;
  ObjectSize : Z
}.

(** The global [operator new] and [operator delete].  [heap_live] is the
    allocator's book-keeping: the live allocations as (address, size). *)
Class Allocator := {
  Heap : Type;
  heap_new : Z -> Heap -> option (Z * Heap);
  heap_delete : Z -> Heap -> Heap;
  heap_live : Heap -> list (Z * Z)
}.

(** What the C++ standard promises of the free store on a 64-bit machine:
    fresh storage is non-null, inside the address space and overlaps no live
    allocation; [delete] retires exactly the given allocation. *)
Class AllocatorLaws (AL : Allocator) : Prop := {
  heap_new_live : forall sz h a h' e,
    heap_new sz h = Some (a, h') ->
    e ∈ heap_live h' <-> e = (a, sz) \/ e ∈ heap_live h;
  heap_new_fresh : forall sz h a h',
    heap_new sz h = Some (a, h') ->
    0 < a /\ a + sz <= 2 ^ 64 /\
    forall b n, (b, n) ∈ heap_live h -> a + sz <= b \/ b + n <= a;
  heap_delete_live : forall a h e,
    e ∈ heap_live (heap_delete a h) <-> e ∈ heap_live h /\ e.1 <> a
}.

(** A concrete free store: new storage is placed above everything live. *)
Definition top_of (live : list (Z * Z)) : Z :=
  foldr (fun e acc => Z.max (e.1 + e.2) acc) 4096 live.

Definition top_heap : Allocator := {|
  Heap := list (Z * Z);
  heap_new := fun sz live =>
    let a := top_of live in
    if 2 ^ 64 <? a + sz then None else Some (a, (a, sz) :: live);
  heap_delete := fun a live => filter (fun e => e.1 <> a) live;
  heap_live := fun live => live
|}.

(** The pool of the specification's examples: 4 slots of 8-byte records. *)
Definition example_params : PoolParams :=
  {| T := nat; BlockCap := 4; ObjectSize := 8 |}.

(** ** Machine integers *)

Definition to_size (z : Z) : Z := z mod 2 ^ 64.

Definition wrap_signed (bits z : Z) : Z :=
  (z + 2 ^ (bits - 1)) mod 2 ^ bits - 2 ^ (bits - 1).

(** Exceptions: the local classes thrown by the pool, and [std::bad_alloc]. *)
Inductive exn :=
| UnavailableBlockCountException
| UnavailableMemoryException
| bad_alloc.

Section Model.
Context {PP : PoolParams} {AL : Allocator}.

(** ** Layout of [MemoryBlock] *)

(** [sizeof(unit_index_t)]: [char], [short], [long] or [long long]. *)
Definition idx_size : Z :=
  if BlockCap <=? 0x7F then 1
  else if BlockCap <=? 0x7FFF then 2
  else 8.

Definition to_idx (z : Z) : Z := wrap_signed (8 * idx_size) z.

Definition align_up (n a : Z) : Z := (n + a - 1) / a * a.

(** [sizeof] of one element of [units]: the link, the object bytes, padding. *)
Definition unit_size : Z := align_up (idx_size + ObjectSize) idx_size.

(** [offsetof(MemoryBlock, units)]: after [next], [first] and [used]. *)
Definition units_off : Z := 8 + 2 * idx_size.

Definition sizeof_MemoryBlock : Z :=
  align_up (units_off + BlockCap * unit_size) 8.

(** ** Data *)

(** One element of [units]: the free-list link and the object storage;
    [mem] is [Some v] while an object constructed by [get] lives there. *)
Record unit_t := { next : Z; mem : option T }.

(** A block: [addr] is its address; its [next] pointer is the tail of the
    list it stands in. *)
Record MemoryBlock := {
  addr : Z;
  first : Z;
  used : Z;
  units : list unit_t
}.

Record ObjectPool := {
  first_ : list MemoryBlock;
  total_block_ : Z
}.

Inductive result (A : Type) :=
| Ok (a : A) (p : ObjectPool) (h : Heap)
| Throw (e : exn) (p : ObjectPool) (h : Heap)
| Undefined.
Arguments Ok {A} a p h.
Arguments Throw {A} e p h.
Arguments Undefined {A}.

Definition bind {A B} (r : result A)
  (k : A -> ObjectPool -> Heap -> result B) : result B :=
  match r with
  | Ok a p h => k a p h
  | Throw e p h => Throw e p h
  | Undefined => Undefined
  end.

(** Address of [blk->units], of [blk->units + BlockCap], of [units[i].mem]. *)
Definition units_addr (b : MemoryBlock) : Z := addr b + units_off.
Definition units_end (b : MemoryBlock) : Z := units_addr b + BlockCap * unit_size.
Definition mem_addr (b : MemoryBlock) (i : Z) : Z :=
  units_addr b + i * unit_size + idx_size.

Definition index_ok (i : Z) : bool := (0 <=? i) && (i <? BlockCap).

(** ** Block creation *)

(** [new MemoryBlock] at address [a]: the default member initialisers. *)
Definition new_MemoryBlock (a : Z) : MemoryBlock :=
  {| addr := a; first := 0; used := 0;
     units := replicate (Z.to_nat BlockCap) {| next := 0; mem := None |} |}.

Definition set_next (j : Z) (u : unit_t) : unit_t :=
  {| next := to_idx j; mem := mem u |}.

(** [for(size_t j = 1; j <= BlockCap; ++j) { data->next = j; ++data; }] with
    [fuel] iterations left; [data] points at element [j - 1]. *)
Fixpoint link_units (fuel : nat) (j : Z) (us : list unit_t) : list unit_t :=
  match fuel with
  | O => us
  | S fuel' => link_units fuel' (j + 1) (alter (set_next j) (Z.to_nat (j - 1)) us)
  end.

Definition fresh_block (a : Z) : MemoryBlock :=
  let b := new_MemoryBlock a in
  {| addr := addr b; first := first b; used := used b;
     units := link_units (Z.to_nat BlockCap) 1 (units b) |}.

(** The outer loop of [addBlock]: [inl] when all [i] blocks were added, [inr]
    when [new] threw on the way. *)
Fixpoint addBlock_loop (i : nat) (blocks : list MemoryBlock) (h : Heap)
  : (list MemoryBlock * Heap) + (list MemoryBlock * Heap) :=
  match i with
  | O => inl (blocks, h)
  | S i' =>
      match heap_new sizeof_MemoryBlock h with
      | None => inr (blocks, h)
      | Some (a, h') => addBlock_loop i' (fresh_block a :: blocks) h'
      end
  end.

Definition addBlock (n_block : Z) (p : ObjectPool) (h : Heap) : result () :=
  if 0 <? n_block then
    match addBlock_loop (Z.to_nat n_block) (first_ p) h with
    | inl (blocks, h') =>
        Ok () {| first_ := blocks;
                 total_block_ := to_size (total_block_ p + n_block) |} h'
    | inr (blocks, h') =>
        Throw bad_alloc {| first_ := blocks; total_block_ := total_block_ p |} h'
    end
  else Throw UnavailableBlockCountException p h.

(** [ObjectPool(size_t n_block)] and [ObjectPool()]. *)
Definition ObjectPool_ctor (n_block : Z) (h : Heap) : result () :=
  addBlock n_block {| first_ := []; total_block_ := 0 |} h.

Definition ObjectPool_default (h : Heap) : result () := ObjectPool_ctor 1 h.

(** ** swap and the move constructor *)

Definition swap (p op : ObjectPool) : ObjectPool * ObjectPool :=
  ({| first_ := first_ op; total_block_ := total_block_ op |},
   {| first_ := first_ p; total_block_ := total_block_ p |}).

(** [ObjectPool(ObjectPool&& op) { this->swap(op); }]: the constructor has no
    member initialisers and the members have no default initialisers, so
    [uninit] stands for whatever the new object's storage held.  The result
    is (the new pool, the moved-from pool). *)
Definition ObjectPool_move (uninit op : ObjectPool) : ObjectPool * ObjectPool :=
  swap uninit op.

(** ** capacity *)

Definition capacity (p : ObjectPool) (h : Heap) : result Z :=
  Ok (to_size (total_block_ p * BlockCap)) p h.

(** ** removeBlock *)

(** The [for] loop of [removeBlock], seen from [ptr->next = blocks]: returns
    the blocks left after [ptr], [total_block_], [ret] and the heap. *)
Fixpoint removeBlock_loop (n_block : Z) (blocks : list MemoryBlock)
  (total ret : Z) (h : Heap) : list MemoryBlock * Z * Z * Heap :=
  match blocks with
  | [] => ([], total, ret, h)
  | temp :: rest =>
      if used temp =? 0 then
        let h' := heap_delete (addr temp) h in
        let total' := to_size (total - 1) in
        let ret' := to_size (ret + 1) in
        if ret' =? n_block then (rest, total', ret', h')
        else removeBlock_loop n_block rest total' ret' h'
      else
        let '(rest', total', ret', h') := removeBlock_loop n_block rest total ret h in
        (temp :: rest', total', ret', h')
  end.

Definition removeBlock (n_block : Z) (p : ObjectPool) (h : Heap) : result Z :=
  if 0 <? n_block then
    if total_block_ p =? 0 then Ok 0 p h
    else
      match first_ p with
      | [] => Undefined
      | b0 :: blocks =>
          let '(rest, total, ret, h') :=
            removeBlock_loop n_block blocks (total_block_ p) 0 h in
          if (used b0 =? 0) && (ret <? n_block) then
            Ok (to_size (ret + 1))
               {| first_ := rest; total_block_ := to_size (total - 1) |}
               (heap_delete (addr b0) h')
          else
            Ok ret {| first_ := b0 :: rest; total_block_ := total |} h'
      end
  else Throw UnavailableBlockCountException p h.

(** ** resize *)

Definition resize (n_block : Z) (p : ObjectPool) (h : Heap) : result Z :=
  if n_block =? total_block_ p then Ok (total_block_ p) p h
  else if total_block_ p <? n_block then
    bind (addBlock (to_size (n_block - total_block_ p)) p h)
         (fun _ p' h' => Ok (total_block_ p') p' h')
  else
    bind (removeBlock (to_size (total_block_ p - n_block)) p h)
         (fun _ p' h' => Ok (total_block_ p') p' h').

(** ** get *)

(** The scan of [get]: index of the first block whose [used] differs from
    [BlockCap], or [None] when [blk] runs into [nullptr]. *)
Fixpoint find_space (blocks : list MemoryBlock) : option nat :=
  match blocks with
  | [] => None
  | blk :: rest =>
      if to_size (used blk) =? BlockCap then S <$> find_space rest
      else Some 0%nat
  end.

(** [++blk->used; new(blk->units[blk->first].mem) T(args...);
    blk->first = blk->units[blk->first].next;] *)
Definition take_unit (v : T) (blk : MemoryBlock) : option (Z * MemoryBlock) :=
  let i := first blk in
  if index_ok i then
    u ← units blk !! Z.to_nat i;
    Some (mem_addr blk i,
          {| addr := addr blk; first := next u;
             used := to_idx (used blk + 1);
             units := <[Z.to_nat i := {| next := next u; mem := Some v |}]> (units blk) |})
  else None.

Definition get_from (k : nat) (v : T) (p : ObjectPool) (h : Heap) : result Z :=
  match first_ p !! k with
  | None => Undefined
  | Some blk =>
      match take_unit v blk with
      | None => Undefined
      | Some (ret, blk') =>
          Ok ret {| first_ := <[k := blk']> (first_ p);
                    total_block_ := total_block_ p |} h
      end
  end.

(** [v] is the object [T(args...)] that the placement [new] constructs. *)
Definition get (v : T) (p : ObjectPool) (h : Heap) : result Z :=
  bind (match first_ p with
        | [] => addBlock 1 p h
        | _ => Ok () p h
        end)
    (fun _ p h =>
       match first_ p with
       | [] => Undefined
       | _ =>
           match find_space (first_ p) with
           | Some k => get_from k v p h
           | None => bind (addBlock 1 p h) (fun _ p h => get_from 0 v p h)
           end
       end).

(** ** release *)

(** [blk->units < ptr && ptr < blk->units + BlockCap] *)
Definition owns (ptr : Z) (blk : MemoryBlock) : bool :=
  (units_addr blk <? ptr) && (ptr <? units_end blk).

Fixpoint find_owner (ptr : Z) (blocks : list MemoryBlock) : option nat :=
  match blocks with
  | [] => None
  | blk :: rest =>
      if owns ptr blk then Some 0%nat else S <$> find_owner ptr rest
  end.

(** The body of the [if] in [release].  The pointer difference is defined
    only between elements of [units], i.e. when the byte distance is a
    multiple of the element size. *)
Definition put_unit (ptr : Z) (blk : MemoryBlock) : option MemoryBlock :=
  let d := ptr - idx_size - units_addr blk in
  if d mod unit_size =? 0 then
    let offset := to_size (d / unit_size) in
    if offset <? BlockCap then
      _ ← units blk !! Z.to_nat offset;
      Some {| addr := addr blk; first := to_idx offset;
              used := to_idx (used blk - 1);
              units := <[Z.to_nat offset := {| next := first blk; mem := None |}]> (units blk) |}
    else None
  else None.

Definition release (ptr : Z) (p : ObjectPool) (h : Heap) : result () :=
  match find_owner ptr (first_ p) with
  | None => Throw UnavailableMemoryException p h
  | Some k =>
      match first_ p !! k with
      | None => Undefined
      | Some blk =>
          match put_unit ptr blk with
          | None => Undefined
          | Some blk' =>
              Ok () {| first_ := <[k := blk']> (first_ p);
                       total_block_ := total_block_ p |} h
          end
      end
  end.

End Model.

Arguments Ok {PP AL A} a p h.
Arguments Throw {PP AL A} e p h.
Arguments Undefined {PP AL A}.

(** ** Sequences of calls, and the notions the specification talks about *)

Section Notions.
Context {PP : PoolParams} {AL : Allocator}.

(** [get] called once per element of [vs], in order. *)
Fixpoint get_all (vs : list T) (p : ObjectPool) (h : Heap) : result (list Z) :=
  match vs with
  | [] => Ok [] p h
  | v :: vs' =>
      bind (get v p h) (fun a p h =>
        bind (get_all vs' p h) (fun l p h => Ok (a :: l) p h))
  end.

(** The free list of a block: the indices met from [i] on, following the
    [next] fields up to the sentinel [BlockCap]; [None] when the walk leaves
    the array or does not reach the sentinel within [fuel] steps. *)
Fixpoint free_list (fuel : nat) (us : list unit_t) (i : Z) : option (list Z) :=
  if i =? BlockCap then Some []
  else
    match fuel with
    | O => None
    | S fuel' =>
        if index_ok i then
          u ← us !! Z.to_nat i;
          l ← free_list fuel' us (next u);
          Some (i :: l)
        else None
    end.

Definition free_units (b : MemoryBlock) : option (list Z) :=
  free_list (Z.to_nat BlockCap) (units b) (first b).

(** The same walk as a relation: [chain us i l] when the links lead from
    [i] through exactly the indices [l] to the sentinel. *)
Inductive chain (us : list unit_t) : Z -> list Z -> Prop :=
| chain_end : chain us BlockCap []
| chain_step i u l :
    index_ok i = true -> us !! Z.to_nat i = Some u ->
    chain us (next u) l -> chain us i (i :: l).

(** Slot [i] of [b] holds a live object. *)
Definition occupied (b : MemoryBlock) (i : Z) : Prop :=
  exists u v, units b !! Z.to_nat i = Some u /\ mem u = Some v.

(** The block invariant of the data model. *)
Definition block_ok (b : MemoryBlock) : Prop :=
  length (units b) = Z.to_nat BlockCap /\
  0 <= used b <= BlockCap /\
  exists l, free_units b = Some l /\ NoDup l /\
            Z.of_nat (length l) = BlockCap - used b /\
            forall i, i ∈ l -> ~ occupied b i.

(** Blocks at the addresses [l] do not overlap. *)
Fixpoint separated (l : list Z) : Prop :=
  match l with
  | [] => True
  | a :: l' =>
      Forall (fun b => a + sizeof_MemoryBlock <= b \/ b + sizeof_MemoryBlock <= a) l'
      /\ separated l'
  end.

(** A block the pool got from the free store and has not given back. *)
Definition block_live (h : Heap) (b : MemoryBlock) : Prop :=
  0 < addr b /\ addr b + sizeof_MemoryBlock <= 2 ^ 64 /\
  (addr b, sizeof_MemoryBlock) ∈ heap_live h.

Definition pool_ok (p : ObjectPool) (h : Heap) : Prop :=
  Forall block_ok (first_ p) /\
  total_block_ p = Z.of_nat (length (first_ p)) /\
  separated (addr <$> first_ p) /\
  Forall (block_live h) (first_ p).

(** [ptr] was returned by [get] and not released since: it is the address of
    the object living in slot [i] of the [k]-th block. *)
Definition live_at (p : ObjectPool) (ptr : Z) (k : nat) (i : Z) : Prop :=
  exists b, first_ p !! k = Some b /\ 0 <= i < BlockCap /\
            occupied b i /\ ptr = mem_addr b i.

Definition live_handle (p : ObjectPool) (ptr : Z) : Prop :=
  exists k i, live_at p ptr k i.

(** The states a program can bring a pool to through its public operations,
    each called within its precondition and returning normally. *)
Inductive reachable : ObjectPool -> Heap -> Prop :=
| reach_ctor n h p h' :
    ObjectPool_ctor n h = Ok () p h' -> reachable p h'
| reach_addBlock n p h p' h' :
    reachable p h -> addBlock n p h = Ok () p' h' -> reachable p' h'
| reach_removeBlock n r p h p' h' :
    reachable p h -> removeBlock n p h = Ok r p' h' -> reachable p' h'
| reach_resize n r p h p' h' :
    reachable p h -> resize n p h = Ok r p' h' -> reachable p' h'
| reach_get v ptr p h p' h' :
    reachable p h -> get v p h = Ok ptr p' h' -> reachable p' h'
| reach_release ptr p h p' h' :
    reachable p h -> live_handle p ptr -> release ptr p h = Ok () p' h' ->
    reachable p' h'.

(** The storage range of a block as the specification words it: from the
    first byte of slot 0 up to, not including, the first byte past the last
    slot. *)
Definition in_storage_range (ptr : Z) (b : MemoryBlock) : Prop :=
  units_addr b <= ptr < units_end b.

(** The range [release] tests: the same without the first byte of slot 0. *)
Definition in_open_range (ptr : Z) (b : MemoryBlock) : Prop :=
  units_addr b < ptr < units_end b.

(** [l] without its first [n] empty blocks. *)
Fixpoint drop_empty (n : nat) (l : list MemoryBlock) : list MemoryBlock :=
  match l with
  | [] => []
  | b :: l' =>
      match n with
      | O => l
      | S n' => if used b =? 0 then drop_empty n' l' else b :: drop_empty n l'
      end
  end.

Definition count_empty (l : list MemoryBlock) : Z :=
  Z.of_nat (length (filter (fun b => used b = 0) l)).

(** The first [n] empty blocks of [l]. *)
Definition first_empty (n : nat) (l : list MemoryBlock) : list MemoryBlock :=
  take n (filter (fun b => used b = 0) l).

(** What [removeBlock(n)] is to keep and to remove of the list [l]: the tail
    is searched first, the head block is taken only if that was not enough. *)
Definition head_goes (n : Z) (b0 : MemoryBlock) (blocks : list MemoryBlock) : bool :=
  (used b0 =? 0) && (count_empty blocks <? n).

Definition kept_blocks (n : Z) (l : list MemoryBlock) : list MemoryBlock :=
  match l with
  | [] => []
  | b0 :: blocks =>
      (if head_goes n b0 blocks then [] else [b0])
      ++ drop_empty (Z.to_nat n) blocks
  end.

Definition removed_blocks (n : Z) (l : list MemoryBlock) : list MemoryBlock :=
  match l with
  | [] => []
  | b0 :: blocks =>
      first_empty (Z.to_nat n) blocks
      ++ (if head_goes n b0 blocks then [b0] else [])
  end.

(** [delete] applied to each block of [l], in order. *)
Definition delete_all (l : list MemoryBlock) (h : Heap) : Heap :=
  foldl (fun h b => heap_delete (addr b) h) h l.

(** A block as [addBlock] leaves it: nothing used, the free list
    0 -> 1 -> ... -> BlockCap - 1 -> BlockCap. *)
Definition fully_free (b : MemoryBlock) : Prop :=
  used b = 0 /\ first b = 0 /\
  units b = (fun i => {| next := i + 1; mem := None |}) <$> seqZ 0 BlockCap.

(** A block whose slots [0 .. j - 1] were handed out in order and whose
    other slots are still linked as [addBlock] left them. *)
Definition filled_to (j : Z) (b : MemoryBlock) : Prop :=
  first b = j /\ used b = j /\
  forall i, j <= i < BlockCap ->
            units b !! Z.to_nat i = Some {| next := i + 1; mem := None |}.

End Notions.

(** ** The pool of the specification's scenarios

    [BlockCap = 4], 8-byte objects, the free store [top_heap]: one block at
    address 4096 (48 bytes, slots of 9 bytes from address 4106 on), after
    one call of [get]. *)

Definition empty_heap : @Heap top_heap := [].

Definition example_heap : @Heap top_heap := [(4096, 48)].

Definition example_object : @T example_params := 7%nat.

Definition example_block : @MemoryBlock example_params :=
  {| addr := 4096; first := 1; used := 1;
     units := [ {| next := 1; mem := Some example_object |};
                {| next := 2; mem := None |};
                {| next := 3; mem := None |};
                {| next := 4; mem := None |} ] |}.

Definition example_pool : @ObjectPool example_params :=
  {| first_ := [example_block]; total_block_ := 1 |}.

(** ** The destructor, and what a caller sees of the objects *)

Section Lifetime.
Context {PP : PoolParams} {AL : Allocator}.

(** [~ObjectPool()]:
    [for(ptr = first_; first_ != nullptr; ptr = first_)
       { first_ = ptr->next; delete ptr; }].
    No object still living in a slot is destroyed; [total_block_] is not
    touched. *)
Fixpoint dtor_loop (blocks : list MemoryBlock) (h : Heap)
  : list MemoryBlock * Heap :=
  match blocks with
  | [] => ([], h)
  | ptr :: rest => dtor_loop rest (heap_delete (addr ptr) h)
  end.

Definition ObjectPool_dtor (p : ObjectPool) (h : Heap) : ObjectPool * Heap :=
  let '(blocks, h') := dtor_loop (first_ p) h in
  ({| first_ := blocks; total_block_ := total_block_ p |}, h').

(** The object [v] lives at the address [ptr]. *)
Definition object_at (p : ObjectPool) (ptr : Z) (v : T) : Prop :=
  exists k i b u,
    first_ p !! k = Some b /\ 0 <= i < BlockCap /\
    units b !! Z.to_nat i = Some u /\ mem u = Some v /\ ptr = mem_addr b i.

(** The number of slots of [b] that hold an object. *)
Definition live_count (b : MemoryBlock) : Z :=
  Z.of_nat (length (filter (fun u => is_Some (mem u)) (units b))).

(** The free list of [b] starts at slot [i], whose link leads back to
    itself. *)
Definition self_linked (b : MemoryBlock) (i : Z) : Prop :=
  first b = i /\ 0 <= i < BlockCap /\
  exists m, units b !! Z.to_nat i = Some {| next := i; mem := m |}.

End Lifetime.

(** A free store with room for one more block only: one allocation of 50
    bytes sits 100 bytes below the end of the address space. *)
Definition crowded_heap : @Heap top_heap := [(2 ^ 64 - 100, 50)].

(** More pools of the scenarios.  [two_block_pool]: two blocks were
    constructed and one object was built; it lives in the head block, at
    address 4155.  [released_pool] and [twice_released_pool]: the object of
    [example_pool] released once and twice. *)

Definition other_object : @T example_params := 8%nat.

Definition two_block_head : @MemoryBlock example_params :=
  {| addr := 4144; first := 1; used := 1;
     units := [ {| next := 1; mem := Some example_object |};
                {| next := 2; mem := None |};
                {| next := 3; mem := None |};
                {| next := 4; mem := None |} ] |}.

Definition two_block_pool : @ObjectPool example_params :=
  {| first_ := [two_block_head; fresh_block 4096]; total_block_ := 2 |}.

Definition two_block_heap : @Heap top_heap := [(4144, 48); (4096, 48)].

Definition released_pool : @ObjectPool example_params :=
  {| first_ := [ {| addr := 4096; first := 0; used := 0;
                    units := [ {| next := 1; mem := None |};
                               {| next := 2; mem := None |};
                               {| next := 3; mem := None |};
                               {| next := 4; mem := None |} ] |} ];
     total_block_ := 1 |}.

Definition twice_released_pool : @ObjectPool example_params :=
  {| first_ := [ {| addr := 4096; first := 0; used := -1;
                    units := [ {| next := 0; mem := None |};
                               {| next := 2; mem := None |};
                               {| next := 3; mem := None |};
                               {| next := 4; mem := None |} ] |} ];
     total_block_ := 1 |}.

(** [full_pool]: the constructor with one block and eight calls of [get];
    the fifth call added the head block at 4144, and both blocks are full.
    [older_room_pool]: the object at 4125, slot 2 of the older block, was
    released, so the head block is full and the older block has room. *)

Definition full_units : list (@unit_t example_params) :=
  [ {| next := 1; mem := Some example_object |};
    {| next := 2; mem := Some example_object |};
    {| next := 3; mem := Some example_object |};
    {| next := 4; mem := Some example_object |} ].

Definition full_head : @MemoryBlock example_params :=
  {| addr := 4144; first := 4; used := 4; units := full_units |}.

Definition full_older : @MemoryBlock example_params :=
  {| addr := 4096; first := 4; used := 4; units := full_units |}.

Definition full_pool : @ObjectPool example_params :=
  {| first_ := [full_head; full_older]; total_block_ := 2 |}.

Definition older_with_room : @MemoryBlock example_params :=
  {| addr := 4096; first := 2; used := 3;
     units := [ {| next := 1; mem := Some example_object |};
                {| next := 2; mem := Some example_object |};
                {| next := 4; mem := None |};
                {| next := 4; mem := Some example_object |} ] |}.

Definition older_room_pool : @ObjectPool example_params :=
  {| first_ := [full_head; older_with_room]; total_block_ := 2 |}.


(** * Proofs *)

(** Equality of the tuples the loops return, component by component. *)
Ltac tuple_eq :=
  repeat (apply pair_equal_spec; split); try reflexivity; try lia.


(** ** Arithmetic of the machine integers and of the layout *)

Lemma to_size_small z : 0 <= z < 2 ^ 64 -> to_size z = z.
Proof. intros Hz. unfold to_size. apply Z.mod_small. exact Hz. Qed.

Lemma wrap_signed_small bits z :
  0 < bits -> - 2 ^ (bits - 1) <= z < 2 ^ (bits - 1) -> wrap_signed bits z = z.
Proof.
  intros Hb Hz. unfold wrap_signed.
  assert (E : 2 ^ bits = 2 * 2 ^ (bits - 1)).
  { rewrite <- Z.pow_succ_r by lia. f_equal. lia. }
  rewrite Z.mod_small by lia. lia.
Qed.

Lemma align_up_bounds n a : 0 < a -> n <= align_up n a < n + a.
Proof.
  intros Ha. unfold align_up.
  pose proof (Z.mul_div_le (n + a - 1) a Ha).
  pose proof (Z.mul_succ_div_gt (n + a - 1) a Ha).
  lia.
Qed.

(** Distinct bounded integers are at most as many as the bound. *)
Lemma NoDup_bounded_length (l : list Z) (n : Z) :
  0 <= n -> NoDup l -> (forall x, x ∈ l -> 0 <= x < n) ->
  Z.of_nat (length l) <= n.
Proof.
  intros Hn Hnd Hin.
  assert (Hsub : l ⊆+ seqZ 0 n).
  { apply NoDup_submseteq; [exact Hnd|].
    intros x Hx. apply elem_of_seqZ. specialize (Hin x Hx). lia. }
  apply submseteq_length in Hsub. rewrite length_seqZ in Hsub. lia.
Qed.

Section Layout.
Context {PP : PoolParams} {AL : Allocator}.
Hypothesis BlockCap_pos : 0 < BlockCap.
Hypothesis BlockCap_fits : BlockCap < 2 ^ 63.
Hypothesis ObjectSize_pos : 0 < ObjectSize.

Lemma idx_size_cases :
  (idx_size = 1 /\ BlockCap <= 0x7F) \/ (idx_size = 2 /\ BlockCap <= 0x7FFF)
  \/ idx_size = 8.
Proof.
  unfold idx_size.
  destruct (Z.leb_spec BlockCap 0x7F); [left; lia|].
  destruct (Z.leb_spec BlockCap 0x7FFF); [right; left; lia|]. right; right; lia.
Qed.

Lemma idx_size_pos : 0 < idx_size.
Proof. destruct idx_size_cases as [[-> _]|[[-> _]| ->]]; lia. Qed.

(** The index type holds every value from -1 to [BlockCap]. *)
Lemma to_idx_small z : -1 <= z <= BlockCap -> to_idx z = z.
Proof.
  intros Hz. unfold to_idx.
  destruct idx_size_cases as [[-> Hc]|[[-> Hc]| ->]];
    (apply wrap_signed_small; [lia|]).
  - change (2 ^ (8 * 1 - 1)) with 128. lia.
  - change (2 ^ (8 * 2 - 1)) with 32768. lia.
  - change (2 ^ (8 * 8 - 1)) with (2 ^ 63). lia.
Qed.

Lemma unit_size_bounds : idx_size + ObjectSize <= unit_size.
Proof. unfold unit_size. apply align_up_bounds, idx_size_pos. Qed.

Lemma unit_size_gt : idx_size < unit_size.
Proof using ObjectSize_pos. pose proof unit_size_bounds. lia. Qed.

Lemma unit_size_pos : 0 < unit_size.
Proof using ObjectSize_pos. pose proof unit_size_gt. pose proof idx_size_pos. lia. Qed.

Lemma units_end_in_block b : units_end b <= addr b + sizeof_MemoryBlock.
Proof.
  unfold units_end, units_addr, sizeof_MemoryBlock.
  pose proof (align_up_bounds (units_off + BlockCap * unit_size) 8). lia.
Qed.

Lemma units_off_pos : 0 < units_off.
Proof. unfold units_off. pose proof idx_size_pos. lia. Qed.

Lemma sizeof_MemoryBlock_gt : BlockCap < sizeof_MemoryBlock.
Proof.
  unfold sizeof_MemoryBlock.
  pose proof (align_up_bounds (units_off + BlockCap * unit_size) 8).
  pose proof units_off_pos. pose proof unit_size_pos. nia.
Qed.

(** The address of the object storage of a slot lies strictly inside the
    slot array of its block, and [release] recovers the slot from it. *)
Lemma mem_addr_owned b i : 0 <= i < BlockCap -> owns (mem_addr b i) b = true.
Proof.
  intros Hi. unfold owns, mem_addr, units_end.
  pose proof idx_size_pos. pose proof unit_size_gt.
  apply andb_true_iff. split; [apply Z.ltb_lt|apply Z.ltb_lt]; nia.
Qed.

Lemma mem_addr_offset b i :
  let d := mem_addr b i - idx_size - units_addr b in
  d mod unit_size = 0 /\ d / unit_size = i.
Proof.
  pose proof unit_size_pos.
  assert (E : mem_addr b i - idx_size - units_addr b = i * unit_size)
    by (unfold mem_addr; lia).
  simpl. rewrite E. split; [apply Z_mod_mult|apply Z_div_mult; lia].
Qed.

End Layout.

(** ** The free list *)

Section FreeList.
Context {PP : PoolParams}.

Lemma index_ok_range i : index_ok i = true <-> 0 <= i < BlockCap.
Proof. unfold index_ok. rewrite andb_true_iff, Z.leb_le, Z.ltb_lt. tauto. Qed.

Lemma free_list_chain fuel us i l :
  free_list fuel us i = Some l -> chain us i l.
Proof.
  revert i l. induction fuel as [|fuel IH]; intros i l; simpl.
  - destruct (Z.eqb_spec i BlockCap) as [->|]; [|discriminate].
    intros [= <-]. constructor.
  - destruct (Z.eqb_spec i BlockCap) as [->|Hne].
    { intros [= <-]. constructor. }
    destruct (index_ok i) eqn:Hi; [|discriminate].
    destruct (us !! Z.to_nat i) as [u|] eqn:Hu; [|discriminate]. simpl.
    destruct (free_list fuel us (next u)) as [l'|] eqn:Hl; [|discriminate].
    simpl. intros [= <-]. econstructor; eauto.
Qed.

Lemma chain_free_list us i l fuel :
  chain us i l -> (length l <= fuel)%nat -> free_list fuel us i = Some l.
Proof.
  intros Hc. revert fuel. induction Hc as [|i u l Hi Hu Hc IH]; intros fuel Hlen.
  - destruct fuel; simpl; rewrite Z.eqb_refl; reflexivity.
  - destruct fuel as [|fuel]; [simpl in Hlen; lia|]. simpl.
    apply index_ok_range in Hi as Hr.
    destruct (Z.eqb_spec i BlockCap); [lia|].
    rewrite Hi, Hu. simpl. rewrite IH by (simpl in Hlen; lia). reflexivity.
Qed.

Lemma chain_range us i l : chain us i l -> forall j, j ∈ l -> 0 <= j < BlockCap.
Proof.
  induction 1 as [|i u l Hi Hu Hc IH]; intros j Hj.
  - inversion Hj.
  - apply elem_of_cons in Hj as [->|Hj]; [apply index_ok_range, Hi|auto].
Qed.

(** The walk reads the links of the indices it meets, nothing else. *)
Lemma chain_ext us us' i l :
  chain us i l ->
  (forall j, j ∈ l -> next <$> us' !! Z.to_nat j = next <$> us !! Z.to_nat j) ->
  chain us' i l.
Proof.
  induction 1 as [|i u l Hi Hu Hc IH]; intros Hext.
  - constructor.
  - pose proof (Hext i ltac:(left)) as Hi'. rewrite Hu in Hi'. simpl in Hi'.
    destruct (us' !! Z.to_nat i) as [u'|] eqn:Hu'; [|discriminate].
    simpl in Hi'. injection Hi' as Hn.
    econstructor; [exact Hi|exact Hu'|]. rewrite Hn. apply IH.
    intros j Hj. apply Hext. right. exact Hj.
Qed.

Lemma chain_length us i l :
  0 < BlockCap -> chain us i l -> NoDup l -> Z.of_nat (length l) <= BlockCap.
Proof.
  intros Hpos Hc Hnd. apply NoDup_bounded_length; [lia|exact Hnd|].
  apply (chain_range _ _ _ Hc).
Qed.

(** [block_ok] stated on the relation. *)
Lemma block_ok_chain b :
  block_ok b <->
  length (units b) = Z.to_nat BlockCap /\ 0 <= used b <= BlockCap /\
  exists l, chain (units b) (first b) l /\ NoDup l /\
            Z.of_nat (length l) = BlockCap - used b /\
            forall i, i ∈ l -> ~ occupied b i.
Proof.
  unfold block_ok, free_units. split.
  - intros (Hlen & Hu & l & Hl & Hnd & Hn & Hfree).
    repeat split; try tauto. exists l. eauto using free_list_chain.
  - intros (Hlen & Hu & l & Hl & Hnd & Hn & Hfree).
    repeat split; try tauto. exists l. repeat split; auto.
    apply chain_free_list; [exact Hl|lia].
Qed.

End FreeList.

(** ** Block creation *)

Section Creation.
Context {PP : PoolParams} {AL : Allocator}.
Hypothesis BlockCap_fits : BlockCap < 2 ^ 63.

(** The initialisation loop rewrites the links of the elements
    [j - 1 .. j - 2 + fuel] and nothing else. *)
Lemma link_units_lookup fuel j us (i : nat) :
  1 <= j ->
  link_units fuel j us !! i =
  if decide (j - 1 <= Z.of_nat i < j - 1 + Z.of_nat fuel)
  then set_next (Z.of_nat i + 1) <$> us !! i
  else us !! i.
Proof.
  revert j us. induction fuel as [|fuel IH]; intros j us Hj; simpl.
  - case_decide; [lia|reflexivity].
  - rewrite IH by lia.
    destruct (decide (i = Z.to_nat (j - 1))) as [->|Hne].
    + rewrite list_lookup_alter.
      replace (Z.of_nat (Z.to_nat (j - 1)) + 1) with j by lia.
      repeat case_decide; try lia. reflexivity.
    + rewrite list_lookup_alter_ne by congruence.
      repeat case_decide; try lia; reflexivity.
Qed.

Lemma fresh_block_units a :
  units (fresh_block a) =
  (fun i => {| next := i + 1; mem := None |}) <$> seqZ 0 BlockCap.
Proof.
  unfold fresh_block, new_MemoryBlock. simpl.
  apply list_eq. intros i.
  rewrite link_units_lookup by lia. rewrite list_lookup_fmap.
  destruct (decide (Z.of_nat i < BlockCap)) as [Hi|Hi].
  - rewrite lookup_seqZ_lt by lia. rewrite lookup_replicate_2 by lia.
    case_decide; [|lia]. simpl. unfold set_next. simpl.
    rewrite to_idx_small by lia. f_equal; f_equal; lia.
  - rewrite lookup_seqZ_ge by lia.
    rewrite (lookup_ge_None_2 (replicate _ _)) by (rewrite length_replicate; lia).
    case_decide; reflexivity.
Qed.

Lemma fresh_block_fully_free a : fully_free (fresh_block a).
Proof.
  unfold fully_free. rewrite fresh_block_units. auto.
Qed.

Lemma fully_free_lookup b i :
  fully_free b -> 0 <= i < BlockCap ->
  units b !! Z.to_nat i = Some {| next := i + 1; mem := None |}.
Proof.
  intros (_ & _ & ->) Hi. rewrite list_lookup_fmap.
  rewrite lookup_seqZ_lt by lia. simpl. f_equal; f_equal; lia.
Qed.

(** In a fully free block the links lead from [i] through
    [i, i + 1, ..., BlockCap - 1] to the sentinel. *)
Lemma fully_free_chain b i :
  fully_free b -> 0 <= i <= BlockCap ->
  chain (units b) i (seqZ i (BlockCap - i)).
Proof.
  intros Hb Hi.
  remember (Z.to_nat (BlockCap - i)) as n eqn:Hn.
  revert i Hi Hn. induction n as [|n IH]; intros i Hi Hn.
  - assert (i = BlockCap) as -> by lia.
    rewrite Z.sub_diag. constructor.
  - rewrite seqZ_cons by lia.
    apply chain_step with (u := {| next := i + 1; mem := None |}).
    + apply index_ok_range. lia.
    + apply fully_free_lookup; [exact Hb|lia].
    + simpl. replace (Z.succ i) with (i + 1) by lia.
      replace (Z.pred (BlockCap - i)) with (BlockCap - (i + 1)) by lia.
      apply IH; lia.
Qed.

Lemma fully_free_free_units b :
  0 <= BlockCap -> fully_free b -> free_units b = Some (seqZ 0 BlockCap).
Proof.
  intros Hpos Hb. unfold free_units.
  destruct Hb as (Hu & Hf & Hus). rewrite Hf.
  apply chain_free_list.
  - assert (Hb : fully_free b) by (repeat split; assumption).
    pose proof (fully_free_chain b 0 Hb ltac:(lia)) as Hc.
    rewrite Z.sub_0_r in Hc. exact Hc.
  - rewrite length_seqZ. lia.
Qed.

Lemma fully_free_ok b : 0 <= BlockCap -> fully_free b -> block_ok b.
Proof.
  intros Hpos Hb. pose proof (fully_free_free_units b Hpos Hb) as Hfree.
  destruct Hb as (Hu & Hf & Hus).
  unfold block_ok. rewrite Hu. split; [|split; [lia|]].
  - rewrite Hus, length_fmap, length_seqZ. reflexivity.
  - exists (seqZ 0 BlockCap). split; [|split; [|split]].
    + exact Hfree.
    + apply NoDup_seqZ.
    + rewrite length_seqZ. lia.
    + intros i Hi (u & v & Hlook & Hv).
      apply elem_of_seqZ in Hi.
      rewrite Hus, list_lookup_fmap, lookup_seqZ_lt in Hlook by lia.
      simpl in Hlook. injection Hlook as <-. discriminate.
Qed.

(** What the loop of [addBlock] returns. *)
Lemma addBlock_loop_inl i blocks h blocks' h' :
  addBlock_loop i blocks h = inl (blocks', h') ->
  exists news, blocks' = news ++ blocks /\ length news = i /\
               Forall fully_free news.
Proof.
  revert blocks h. induction i as [|i IH]; intros blocks h; simpl.
  - intros [= <- <-]. exists []. auto.
  - destruct (heap_new sizeof_MemoryBlock h) as [[a h1]|]; [|discriminate].
    intros Hloop. apply IH in Hloop as (news & -> & Hlen & Hfree).
    exists (news ++ [fresh_block a]). rewrite <- app_assoc. simpl.
    split; [reflexivity|]. split.
    + rewrite length_app. simpl. lia.
    + apply Forall_app. split; [exact Hfree|].
      constructor; [apply fresh_block_fully_free|constructor].
Qed.

Lemma addBlock_Ok n p h p' h' :
  addBlock n p h = Ok () p' h' ->
  0 < n /\
  total_block_ p' = to_size (total_block_ p + n) /\
  exists news, first_ p' = news ++ first_ p /\
               length news = Z.to_nat n /\ Forall fully_free news.
Proof.
  unfold addBlock. destruct (Z.ltb_spec 0 n) as [Hn|]; [|discriminate].
  destruct (addBlock_loop _ _ _) as [[blocks h1]|[blocks h1]] eqn:Hloop;
    [|discriminate].
  intros [= <- <-]. simpl. split; [exact Hn|]. split; [reflexivity|].
  eapply addBlock_loop_inl. exact Hloop.
Qed.

End Creation.

(** ** Blocks that do not overlap, and how many fit the address space *)

Section Separation.
Context {PP : PoolParams} {AL : Allocator}.
Hypothesis BlockCap_pos : 0 < BlockCap.
Hypothesis ObjectSize_pos : 0 < ObjectSize.

Lemma sizeof_MemoryBlock_pos : 0 < sizeof_MemoryBlock.
Proof.
  pose proof (sizeof_MemoryBlock_gt BlockCap_pos ObjectSize_pos). lia.
Qed.

Lemma separated_lookup (l : list Z) (i j : nat) a b :
  separated l -> l !! i = Some a -> l !! j = Some b -> i <> j ->
  a + sizeof_MemoryBlock <= b \/ b + sizeof_MemoryBlock <= a.
Proof.
  revert i j. induction l as [|x l IH]; intros i j Hsep Hi Hj Hne.
  - discriminate.
  - destruct Hsep as [Hx Hsep]. rewrite list.Forall_forall in Hx.
    destruct i as [|i], j as [|j]; simpl in *; try congruence.
    + injection Hi as <-. apply Hx. eapply list_elem_of_lookup_2, Hj.
    + injection Hj as <-.
      destruct (Hx a) as [?|?]; [eapply list_elem_of_lookup_2, Hi|lia|lia].
    + eapply IH; eauto.
Qed.

Lemma separated_sublist (l1 l2 : list Z) :
  sublist l1 l2 -> separated l2 -> separated l1.
Proof.
  induction 1 as [|x l1 l2 Hsub IH|x l1 l2 Hsub IH]; simpl.
  - auto.
  - intros [Hx Hsep]. split; [|auto].
    rewrite list.Forall_forall in Hx |- *.
    intros y Hy. apply Hx. eapply elem_of_sublist; eassumption.
  - intros [_ Hsep]. auto.
Qed.

(** Blocks that do not overlap start in different windows of the size of a
    block. *)
Lemma separated_windows (l : list Z) :
  separated l -> NoDup ((fun a => a / sizeof_MemoryBlock) <$> l).
Proof.
  pose proof sizeof_MemoryBlock_pos as HS.
  induction l as [|a l IH]; simpl; [constructor|].
  intros [Ha Hsep]. constructor; [|auto].
  intros Hin. apply list_elem_of_fmap in Hin as (b & Hq & Hb).
  rewrite list.Forall_forall in Ha. specialize (Ha b Hb).
  assert (Hstep : forall x y, x + sizeof_MemoryBlock <= y ->
            x / sizeof_MemoryBlock < y / sizeof_MemoryBlock).
  { intros x y Hxy.
    pose proof (Z.div_le_mono _ _ sizeof_MemoryBlock HS Hxy) as Hle.
    replace (x + sizeof_MemoryBlock) with (x + 1 * sizeof_MemoryBlock) in Hle by lia.
    rewrite Z.div_add in Hle by lia. lia. }
  destruct Ha as [Hab|Hba]; [apply Hstep in Hab|apply Hstep in Hba]; lia.
Qed.

Lemma separated_count (l : list Z) :
  separated l ->
  Forall (fun a => 0 < a /\ a + sizeof_MemoryBlock <= 2 ^ 64) l ->
  Z.of_nat (length l) * sizeof_MemoryBlock <= 2 ^ 64.
Proof.
  pose proof sizeof_MemoryBlock_pos as HS.
  intros Hsep Hin.
  pose proof (separated_windows l Hsep) as Hnd.
  apply (NoDup_bounded_length _ (2 ^ 64 / sizeof_MemoryBlock)) in Hnd.
  - rewrite length_fmap in Hnd.
    pose proof (Z.mul_div_le (2 ^ 64) sizeof_MemoryBlock HS). nia.
  - apply Z.div_pos; lia.
  - intros q Hq. apply list_elem_of_fmap in Hq as (a & -> & Ha).
    rewrite list.Forall_forall in Hin. destruct (Hin a Ha) as [Ha0 Ha1].
    split; [apply Z.div_pos; lia|].
    assert (Hle : a <= 2 ^ 64 + (-1) * sizeof_MemoryBlock) by lia.
    apply (Z.div_le_mono _ _ sizeof_MemoryBlock HS) in Hle.
    rewrite Z.div_add in Hle by lia. lia.
Qed.

(** The blocks of a well-formed pool fit the address space, so neither the
    block counter nor the capacity wraps around. *)
Lemma pool_ok_count p h :
  pool_ok p h ->
  Z.of_nat (length (first_ p)) * sizeof_MemoryBlock <= 2 ^ 64.
Proof.
  intros (_ & _ & Hsep & Hlive).
  rewrite <- (length_fmap addr). apply separated_count; [exact Hsep|].
  apply list.Forall_forall. intros a Ha.
  apply list_elem_of_fmap in Ha as (b & -> & Hb).
  rewrite list.Forall_forall in Hlive. destruct (Hlive b Hb) as (? & ? & _). auto.
Qed.

Lemma pool_ok_total p h :
  pool_ok p h ->
  0 <= total_block_ p < 2 ^ 64 /\ 0 <= total_block_ p * BlockCap < 2 ^ 64.
Proof.
  intros Hok. pose proof (pool_ok_count p h Hok) as Hc.
  destruct Hok as (_ & -> & _).
  pose proof (sizeof_MemoryBlock_gt BlockCap_pos ObjectSize_pos). nia.
Qed.

End Separation.

(** ** The pool invariant is kept by every operation *)

Section Preservation.
Context {PP : PoolParams} {AL : Allocator} {Laws : AllocatorLaws AL}.
Hypothesis BlockCap_pos : 0 < BlockCap.
Hypothesis BlockCap_fits : BlockCap < 2 ^ 63.
Hypothesis ObjectSize_pos : 0 < ObjectSize.

Lemma addBlock_inv n p h p' h' :
  addBlock n p h = Ok () p' h' ->
  0 < n /\
  addBlock_loop (Z.to_nat n) (first_ p) h = inl (first_ p', h') /\
  total_block_ p' = to_size (total_block_ p + n).
Proof.
  unfold addBlock. destruct (Z.ltb_spec 0 n) as [Hn|]; [|discriminate].
  destruct (addBlock_loop _ _ _) as [[blocks h1]|[blocks h1]] eqn:Hloop;
    [|discriminate].
  intros [= <- <-]. simpl. auto.
Qed.

Lemma addBlock_loop_live i blocks h blocks' h' :
  addBlock_loop i blocks h = inl (blocks', h') ->
  separated (addr <$> blocks) -> Forall (block_live h) blocks ->
  separated (addr <$> blocks') /\ Forall (block_live h') blocks'.
Proof.
  revert blocks h. induction i as [|i IH]; intros blocks h; simpl.
  - intros [= <- <-]. auto.
  - destruct (heap_new sizeof_MemoryBlock h) as [[a h1]|] eqn:Hnew;
      [|discriminate].
    intros Hloop Hsep Hlive.
    destruct (heap_new_fresh _ _ _ _ Hnew) as (Ha0 & Ha1 & Hfresh).
    rewrite list.Forall_forall in Hlive.
    apply IH in Hloop; [exact Hloop| |].
    + simpl. split; [|exact Hsep].
      apply list.Forall_forall. intros x Hx.
      apply list_elem_of_fmap in Hx as (b & -> & Hb).
      destruct (Hlive b Hb) as (_ & _ & Hin). apply (Hfresh _ _ Hin).
    + constructor.
      * repeat split; simpl; try lia.
        apply (heap_new_live _ _ _ _ _ Hnew). left. reflexivity.
      * apply list.Forall_forall. intros b Hb.
        destruct (Hlive b Hb) as (? & ? & Hin). repeat split; try lia.
        apply (heap_new_live _ _ _ _ _ Hnew). right. exact Hin.
Qed.

Lemma addBlock_pool_ok n p h p' h' :
  pool_ok p h -> addBlock n p h = Ok () p' h' -> pool_ok p' h'.
Proof.
  intros Hok Hadd.
  pose proof (addBlock_Ok BlockCap_fits _ _ _ _ _ Hadd)
    as (Hn & Htot & news & Hfirst & Hlen & Hfree).
  apply addBlock_inv in Hadd as (_ & Hloop & _).
  destruct Hok as (Hblocks & Htotal & Hsep & Hlive).
  destruct (addBlock_loop_live _ _ _ _ _ Hloop Hsep Hlive) as [Hsep' Hlive'].
  assert (Hok' : Forall block_ok (first_ p')).
  { rewrite Hfirst. apply list.Forall_app. split; [|exact Hblocks].
    eapply list.Forall_impl; [exact Hfree|]. intros b Hb.
    apply fully_free_ok; [lia|exact Hb]. }
  assert (Hcount : Z.of_nat (length (first_ p')) * sizeof_MemoryBlock <= 2 ^ 64).
  { rewrite <- (length_fmap addr).
    apply (separated_count BlockCap_pos ObjectSize_pos); [exact Hsep'|].
    apply list.Forall_forall. intros a Ha.
    apply list_elem_of_fmap in Ha as (b & -> & Hb).
    rewrite list.Forall_forall in Hlive'.
    destruct (Hlive' b Hb) as (? & ? & _). auto. }
  repeat split; try assumption.
  rewrite Htot, Htotal.
  pose proof (sizeof_MemoryBlock_gt BlockCap_pos ObjectSize_pos).
  rewrite Hfirst, length_app, Hlen in Hcount |- *.
  rewrite to_size_small by nia. lia.
Qed.

(** *** get *)

Lemma find_space_Some l k :
  find_space l = Some k ->
  exists b, l !! k = Some b /\ to_size (used b) <> BlockCap /\
            forall j bj, (j < k)%nat -> l !! j = Some bj ->
                         to_size (used bj) = BlockCap.
Proof.
  revert k. induction l as [|b l IH]; intros k; simpl; [discriminate|].
  destruct (Z.eqb_spec (to_size (used b)) BlockCap) as [Hfull|Hfree].
  - destruct (find_space l) as [k'|]; [|discriminate].
    simpl. intros [= <-]. destruct (IH k' eq_refl) as (b' & Hb' & Hne & Hbefore).
    exists b'. repeat split; try assumption.
    intros [|j] bj Hj Hlook; simpl in Hlook.
    + injection Hlook as <-. exact Hfull.
    + eapply Hbefore; [|exact Hlook]. lia.
  - intros [= <-]. exists b. split; [reflexivity|]. split; [exact Hfree|].
    intros j bj Hj. lia.
Qed.

Lemma find_space_None l :
  find_space l = None -> Forall (fun b => to_size (used b) = BlockCap) l.
Proof.
  induction l as [|b l IH]; simpl; [constructor|].
  destruct (Z.eqb_spec (to_size (used b)) BlockCap) as [Hfull|Hfree];
    [|discriminate].
  destruct (find_space l); [discriminate|]. intros _. constructor; auto.
Qed.

(** The scan stops at the first block whose [used] differs from
    [BlockCap], however far from the head that block is, and runs off the
    list when there is none. *)
Lemma find_space_first l k b :
  l !! k = Some b -> to_size (used b) <> BlockCap ->
  (forall j bj, (j < k)%nat -> l !! j = Some bj ->
                to_size (used bj) = BlockCap) ->
  find_space l = Some k.
Proof.
  revert k. induction l as [|b0 l IH]; intros k Hk Hroom Hbefore;
    [discriminate|].
  destruct k as [|k]; simpl in Hk |- *.
  - injection Hk as ->.
    destruct (Z.eqb_spec (to_size (used b)) BlockCap); [contradiction|reflexivity].
  - rewrite (Hbefore 0%nat b0 ltac:(lia) eq_refl), Z.eqb_refl.
    rewrite (IH k Hk Hroom); [reflexivity|].
    intros j bj Hj Hl. apply (Hbefore (S j) bj); [lia|exact Hl].
Qed.

Lemma find_space_full l :
  Forall (fun b => to_size (used b) = BlockCap) l -> find_space l = None.
Proof.
  induction 1 as [|b l Hb _ IH]; simpl; [reflexivity|].
  rewrite Hb, Z.eqb_refl, IH. reflexivity.
Qed.

(** A block that is not full hands out the slot at the head of its free
    list, and stays well formed. *)
Lemma take_unit_ok v b :
  block_ok b -> used b <> BlockCap ->
  exists u b',
    units b !! Z.to_nat (first b) = Some u /\ 0 <= first b < BlockCap /\
    ~ occupied b (first b) /\
    take_unit v b = Some (mem_addr b (first b), b') /\
    addr b' = addr b /\ used b' = used b + 1 /\ first b' = next u /\
    units b' = <[Z.to_nat (first b) := {| next := next u; mem := Some v |}]> (units b) /\
    block_ok b'.
Proof.
  intros Hok Hne. apply block_ok_chain in Hok
    as (Hlen & Hused & l & Hchain & Hnd & Hcount & Hfree).
  inversion Hchain as [Hend Hnil|i u l' Hi Hu Hchain' Hieq Hleq];
    subst l; [simpl in Hcount; lia|]. subst i.
  apply index_ok_range in Hi as Hr.
  exists u. eexists. split; [exact Hu|]. split; [exact Hr|].
  split; [apply Hfree; left|].
  unfold take_unit. rewrite Hi, Hu. simpl.
  rewrite to_idx_small by lia.
  split; [reflexivity|]. simpl. do 4 (split; [reflexivity|]).
  apply block_ok_chain. simpl. rewrite length_insert.
  split; [exact Hlen|]. split; [lia|].
  apply list.NoDup_cons in Hnd as [Hnotin Hnd].
  exists l'. split; [|split; [exact Hnd|split; [simpl in Hcount; lia|]]].
  - eapply chain_ext; [exact Hchain'|]. intros j Hj.
    destruct (decide (Z.to_nat j = Z.to_nat (first b))) as [->|Hji].
    + rewrite list_lookup_insert_eq by (apply lookup_lt_Some in Hu; exact Hu).
      rewrite Hu. reflexivity.
    + rewrite list_lookup_insert_ne by congruence. reflexivity.
  - intros j Hj (u' & v' & Hu' & Hv'). simpl in Hu'.
    pose proof (chain_range _ _ _ Hchain' j Hj) as Hjr.
    assert (Hji : Z.to_nat (first b) <> Z.to_nat j).
    { intros Heq. apply Hnotin. replace (first b) with j by lia. exact Hj. }
    rewrite list_lookup_insert_ne in Hu' by exact Hji.
    apply (Hfree j); [right; exact Hj|]. exists u', v'. auto.
Qed.

(** Replacing a block by a well-formed one at the same address keeps the
    pool well formed. *)
Lemma pool_ok_insert p h k b b' :
  pool_ok p h -> first_ p !! k = Some b -> block_ok b' -> addr b' = addr b ->
  pool_ok {| first_ := <[k := b']> (first_ p); total_block_ := total_block_ p |} h.
Proof.
  intros (Hblocks & Htotal & Hsep & Hlive) Hk Hb' Haddr.
  unfold pool_ok. simpl. rewrite length_insert.
  assert (Hlt : (k < length (first_ p))%nat) by (eapply lookup_lt_Some, Hk).
  split; [apply Forall_insert; assumption|]. split; [exact Htotal|]. split.
  - rewrite list_fmap_insert, Haddr. rewrite list_insert_id; [exact Hsep|].
    rewrite list_lookup_fmap, Hk. reflexivity.
  - apply Forall_insert; [exact Hlive|].
    rewrite list.Forall_forall in Hlive.
    pose proof (Hlive b (list_elem_of_lookup_2 _ _ _ Hk)) as Hb.
    unfold block_live in *. rewrite Haddr. exact Hb.
Qed.

Lemma block_ok_not_full b :
  block_ok b -> to_size (used b) <> BlockCap -> used b <> BlockCap.
Proof.
  intros (_ & Hused & _) Hne Heq. apply Hne.
  rewrite to_size_small by lia. exact Heq.
Qed.

(** [get] on the [k]-th block, when that block is well formed and not full. *)
Lemma get_from_ok k v p h b :
  first_ p !! k = Some b -> block_ok b -> used b <> BlockCap ->
  exists b',
    get_from k v p h =
      Ok (mem_addr b (first b))
         {| first_ := <[k := b']> (first_ p); total_block_ := total_block_ p |} h /\
    addr b' = addr b /\ used b' = used b + 1 /\ block_ok b' /\
    ~ occupied b (first b) /\ 0 <= first b < BlockCap /\
    units b' !! Z.to_nat (first b) =
      Some {| next := first b'; mem := Some v |} /\
    (forall j, j <> Z.to_nat (first b) -> units b' !! j = units b !! j).
Proof.
  intros Hk Hok Hne.
  destruct (take_unit_ok v b Hok Hne)
    as (u & b' & Hu & Hr & Hfree & Htake & Haddr & Hused & Hfirst & Hunits & Hok').
  exists b'. unfold get_from. rewrite Hk, Htake.
  split; [reflexivity|]. do 5 (split; [assumption|]). split.
  - rewrite Hunits, Hfirst.
    apply list_lookup_insert_eq. eapply lookup_lt_Some, Hu.
  - intros j Hj. rewrite Hunits. apply list_lookup_insert_ne. congruence.
Qed.

(** What [addBlock(1)] does. *)
Lemma addBlock_one p h :
  addBlock 1 p h =
  match heap_new sizeof_MemoryBlock h with
  | Some (a, h') =>
      Ok () {| first_ := fresh_block a :: first_ p;
               total_block_ := to_size (total_block_ p + 1) |} h'
  | None =>
      Throw bad_alloc {| first_ := first_ p; total_block_ := total_block_ p |} h
  end.
Proof.
  unfold addBlock. simpl.
  destruct (heap_new sizeof_MemoryBlock h) as [[a h']|]; reflexivity.
Qed.

Lemma find_space_fresh a l : find_space (fresh_block a :: l) = Some 0%nat.
Proof.
  unfold find_space. change (to_size (used (fresh_block a))) with 0.
  destruct (Z.eqb_spec 0 BlockCap); [lia|reflexivity].
Qed.

(** The two ways through [get]: a block with room is found, or the list is
    empty or full and one block is added, which then serves the request. *)
Lemma get_unfold v p h :
  get v p h =
  match first_ p, find_space (first_ p) with
  | _ :: _, Some k => get_from k v p h
  | _, _ => bind (addBlock 1 p h) (fun _ p1 h1 => get_from 0 v p1 h1)
  end.
Proof.
  unfold get. destruct (first_ p) as [|b0 l] eqn:Hfirst.
  - rewrite addBlock_one.
    destruct (heap_new sizeof_MemoryBlock h) as [[a h1]|]; [|reflexivity].
    cbn [bind first_]. rewrite find_space_fresh. reflexivity.
  - cbn [bind]. rewrite Hfirst.
    destruct (find_space (b0 :: l)); reflexivity.
Qed.

Lemma mem_addr_addr b b' i : addr b' = addr b -> mem_addr b' i = mem_addr b i.
Proof. unfold mem_addr, units_addr. intros ->. reflexivity. Qed.

(** [get] when some block has room: the first such block serves it. *)
Lemma get_room v p h k :
  Forall block_ok (first_ p) -> find_space (first_ p) = Some k ->
  exists b b',
    first_ p !! k = Some b /\ used b < BlockCap /\
    (forall j bj, (j < k)%nat -> first_ p !! j = Some bj -> used bj = BlockCap) /\
    get v p h =
      Ok (mem_addr b (first b))
         {| first_ := <[k := b']> (first_ p); total_block_ := total_block_ p |} h /\
    addr b' = addr b /\ used b' = used b + 1 /\ block_ok b' /\
    ~ occupied b (first b) /\ 0 <= first b < BlockCap /\
    units b' !! Z.to_nat (first b) = Some {| next := first b'; mem := Some v |} /\
    (forall j, j <> Z.to_nat (first b) -> units b' !! j = units b !! j).
Proof.
  intros Hblocks Hfind. rewrite list.Forall_forall in Hblocks.
  destruct (find_space_Some _ _ Hfind) as (b & Hk & Hroom & Hbefore).
  pose proof (Hblocks b (list_elem_of_lookup_2 _ _ _ Hk)) as Hok.
  pose proof (block_ok_not_full b Hok Hroom) as Hne.
  destruct (get_from_ok k v p h b Hk Hok Hne) as (b' & Hget & Hrest).
  exists b, b'. split; [exact Hk|]. split; [destruct Hok as (_ & ? & _); lia|].
  split.
  { intros j bj Hj Hlook. specialize (Hbefore j bj Hj Hlook).
    destruct (Hblocks bj (list_elem_of_lookup_2 _ _ _ Hlook)) as (_ & Hu & _).
    rewrite to_size_small in Hbefore by lia. exact Hbefore. }
  split; [|exact Hrest].
  rewrite get_unfold by assumption. rewrite Hfind.
  destruct (first_ p) eqn:Hfirst; [discriminate|]. exact Hget.
Qed.

(** [get] when no block has room and the free store provides one. *)
Lemma get_grow v p h a h1 :
  find_space (first_ p) = None ->
  heap_new sizeof_MemoryBlock h = Some (a, h1) ->
  exists b',
    get v p h =
      Ok (mem_addr (fresh_block a) 0)
         {| first_ := b' :: first_ p;
            total_block_ := to_size (total_block_ p + 1) |} h1 /\
    addr b' = a /\ used b' = 1 /\ first b' = 1 /\ block_ok b' /\
    units b' !! 0%nat = Some {| next := 1; mem := Some v |} /\
    (forall j, j <> 0%nat -> units b' !! j = units (fresh_block a) !! j).
Proof.
  intros Hfind Hnew.
  pose proof (fresh_block_fully_free BlockCap_fits a) as Hfree.
  assert (Hok : block_ok (fresh_block a))
    by (apply fully_free_ok; [lia|exact Hfree]).
  pose proof (fully_free_lookup (fresh_block a) 0 Hfree ltac:(lia)) as Hu0.
  destruct Hfree as (Hused & Hfirst & Hunits).
  destruct (take_unit_ok v (fresh_block a) Hok ltac:(lia))
    as (u & b' & Hu & _ & _ & Htake & Haddr & Hused' & Hfirst' & Hunits' & Hok').
  rewrite Hfirst in Hu, Htake, Hunits'. rewrite Hu0 in Hu. injection Hu as <-.
  simpl in Hfirst', Hunits'.
  exists b'. split.
  { rewrite get_unfold by assumption. rewrite Hfind, addBlock_one, Hnew.
    assert (Hget : get_from 0 v
              {| first_ := fresh_block a :: first_ p;
                 total_block_ := to_size (total_block_ p + 1) |} h1 =
            Ok (mem_addr (fresh_block a) 0)
               {| first_ := b' :: first_ p;
                  total_block_ := to_size (total_block_ p + 1) |} h1).
    { unfold get_from. simpl. rewrite Htake. reflexivity. }
    destruct (first_ p); exact Hget. }
  split; [exact Haddr|]. split; [lia|]. split; [exact Hfirst'|].
  split; [exact Hok'|]. rewrite Hunits'. split.
  - apply list_lookup_insert_eq. eapply lookup_lt_Some, Hu0.
  - intros j Hj. apply list_lookup_insert_ne.
    intros E. apply Hj. rewrite <- E. reflexivity.
Qed.

Lemma get_grow_fail v p h :
  find_space (first_ p) = None ->
  heap_new sizeof_MemoryBlock h = None ->
  get v p h =
  Throw bad_alloc {| first_ := first_ p; total_block_ := total_block_ p |} h.
Proof.
  intros Hfind Hnew. rewrite get_unfold by assumption.
  rewrite Hfind, addBlock_one, Hnew. destruct (first_ p); reflexivity.
Qed.

(** [get] keeps the pool well formed and returns the address of a slot that
    now holds the object. *)
Lemma get_pool_ok v p h ptr p' h' :
  pool_ok p h -> get v p h = Ok ptr p' h' ->
  pool_ok p' h' /\ live_handle p' ptr.
Proof.
  intros Hok Hget.
  destruct (find_space (first_ p)) as [k|] eqn:Hfind.
  - destruct (get_room v p h k (proj1 Hok) Hfind)
      as (b & b' & Hk & _ & _ & Hget' & Haddr & _ & Hok' & _ & Hr & Hslot & _).
    rewrite Hget' in Hget. injection Hget as <- <- <-.
    split; [eapply pool_ok_insert; eassumption|].
    exists k, (first b), b'. simpl.
    split; [apply list_lookup_insert_eq; eapply lookup_lt_Some, Hk|].
    split; [exact Hr|]. split; [|symmetry; apply mem_addr_addr, Haddr].
    eexists _, v. split; [exact Hslot|reflexivity].
  - destruct (heap_new sizeof_MemoryBlock h) as [[a h1]|] eqn:Hnew.
    + destruct (get_grow v p h a h1 Hfind Hnew)
        as (b' & Hget' & Haddr & _ & _ & Hok' & Hslot & _).
      rewrite Hget' in Hget. injection Hget as <- <- <-.
      assert (Hadd : addBlock 1 p h =
                Ok () {| first_ := fresh_block a :: first_ p;
                         total_block_ := to_size (total_block_ p + 1) |} h1)
        by (rewrite addBlock_one, Hnew; reflexivity).
      pose proof (addBlock_pool_ok _ _ _ _ _ Hok Hadd) as Hok1.
      split.
      * apply (pool_ok_insert _ _ 0%nat (fresh_block a) b' Hok1 eq_refl Hok' Haddr).
      * exists 0%nat, 0, b'. simpl. split; [reflexivity|].
        split; [lia|]. split; [|symmetry; apply mem_addr_addr, Haddr].
        eexists _, v. split; [exact Hslot|reflexivity].
    + rewrite (get_grow_fail v p h Hfind Hnew) in Hget. discriminate.
Qed.

(** *** release *)

Lemma owns_range ptr b : owns ptr b = true <-> in_open_range ptr b.
Proof.
  unfold owns, in_open_range. rewrite andb_true_iff, !Z.ltb_lt. tauto.
Qed.

Lemma owns_in_block ptr b :
  owns ptr b = true -> addr b < ptr < addr b + sizeof_MemoryBlock.
Proof.
  intros Ho. apply owns_range in Ho. unfold in_open_range in Ho.
  pose proof (units_end_in_block b). pose proof units_off_pos.
  unfold units_addr in *. lia.
Qed.

Lemma find_owner_Some ptr l k :
  find_owner ptr l = Some k ->
  exists b, l !! k = Some b /\ owns ptr b = true /\
            forall j bj, (j < k)%nat -> l !! j = Some bj -> owns ptr bj = false.
Proof.
  revert k. induction l as [|b l IH]; intros k; simpl; [discriminate|].
  destruct (owns ptr b) eqn:Ho.
  - intros [= <-]. exists b. split; [reflexivity|]. split; [exact Ho|].
    intros j bj Hj. lia.
  - destruct (find_owner ptr l) as [k'|]; [|discriminate].
    simpl. intros [= <-]. destruct (IH k' eq_refl) as (b' & Hb' & Ho' & Hbefore).
    exists b'. split; [exact Hb'|]. split; [exact Ho'|].
    intros [|j] bj Hj Hlook; simpl in Hlook.
    + injection Hlook as <-. exact Ho.
    + eapply Hbefore; [|exact Hlook]. lia.
Qed.

Lemma find_owner_first ptr l k b :
  l !! k = Some b -> owns ptr b = true ->
  (forall j bj, (j < k)%nat -> l !! j = Some bj -> owns ptr bj = false) ->
  find_owner ptr l = Some k.
Proof.
  revert k. induction l as [|b0 l IH]; intros k Hk Ho Hbefore; [discriminate|].
  destruct k as [|k]; simpl in *.
  - injection Hk as ->. rewrite Ho. reflexivity.
  - rewrite (Hbefore 0%nat b0 ltac:(lia) eq_refl).
    rewrite (IH k Hk Ho); [reflexivity|].
    intros j bj Hj Hlook. apply (Hbefore (S j) bj); [lia|exact Hlook].
Qed.

Lemma find_owner_None ptr l :
  find_owner ptr l = None <-> Forall (fun b => owns ptr b = false) l.
Proof.
  induction l as [|b l IH]; simpl.
  - split; [constructor|reflexivity].
  - rewrite list.Forall_cons. destruct (owns ptr b).
    + split; [discriminate|intros [? _]; discriminate].
    + rewrite <- IH. destruct (find_owner ptr l); simpl; split;
        try discriminate; try tauto. intros [_ ?]. discriminate.
Qed.

(** In a well-formed pool only one block owns an address. *)
Lemma owner_unique p h ptr k j bk bj :
  pool_ok p h -> first_ p !! k = Some bk -> first_ p !! j = Some bj ->
  owns ptr bk = true -> j <> k -> owns ptr bj = false.
Proof.
  intros (_ & _ & Hsep & _) Hk Hj Hok Hne.
  destruct (owns ptr bj) eqn:Hoj; [|reflexivity].
  apply owns_in_block in Hok, Hoj.
  assert (Hsj : (addr <$> first_ p) !! j = Some (addr bj))
    by (rewrite list_lookup_fmap, Hj; reflexivity).
  assert (Hsk : (addr <$> first_ p) !! k = Some (addr bk))
    by (rewrite list_lookup_fmap, Hk; reflexivity).
  pose proof (separated_lookup _ _ _ _ _ Hsep Hsj Hsk Hne). lia.
Qed.

(** What the body of [release] does with the address of slot [i]. *)
Lemma put_unit_slot b i u :
  0 <= i < BlockCap -> units b !! Z.to_nat i = Some u ->
  put_unit (mem_addr b i) b =
  Some {| addr := addr b; first := i; used := to_idx (used b - 1);
          units := <[Z.to_nat i := {| next := first b; mem := None |}]> (units b) |}.
Proof.
  intros Hi Hu. unfold put_unit.
  pose proof (mem_addr_offset ObjectSize_pos b i) as Hoff.
  cbv zeta in Hoff. destruct Hoff as [-> ->].
  rewrite Z.eqb_refl. rewrite to_size_small by lia.
  destruct (Z.ltb_spec i BlockCap); [|lia].
  rewrite Hu. simpl. rewrite (to_idx_small BlockCap_fits i) by lia.
  reflexivity.
Qed.

(** Releasing an occupied slot of a well-formed block puts the slot at the
    head of the free list and keeps the block well formed. *)
Lemma put_unit_ok b i :
  block_ok b -> 0 <= i < BlockCap -> occupied b i ->
  exists b',
    put_unit (mem_addr b i) b = Some b' /\
    addr b' = addr b /\ used b' = used b - 1 /\ first b' = i /\
    units b' = <[Z.to_nat i := {| next := first b; mem := None |}]> (units b) /\
    block_ok b'.
Proof.
  intros Hok Hi Hocc. pose proof Hocc as (u & v & Hu & Hv).
  apply block_ok_chain in Hok
    as (Hlen & Hused & l & Hchain & Hnd & Hcount & Hfree).
  assert (Hnotin : i ∉ l) by (intros Hin; apply (Hfree i Hin); exact Hocc).
  assert (Hlt : (Z.to_nat i < length (units b))%nat)
    by (eapply lookup_lt_Some, Hu).
  assert (Hpos : 0 < used b).
  { assert (Hnd' : NoDup (i :: l)) by (apply list.NoDup_cons; auto).
    apply (NoDup_bounded_length _ BlockCap) in Hnd'; [simpl in Hnd'; lia|lia|].
    intros x Hx. apply elem_of_cons in Hx as [->|Hx]; [exact Hi|].
    eapply chain_range; eassumption. }
  eexists. split; [apply (put_unit_slot b i u Hi Hu)|]. simpl.
  rewrite (to_idx_small BlockCap_fits) by lia.
  do 4 (split; [reflexivity|]).
  apply block_ok_chain. simpl. rewrite length_insert.
  split; [exact Hlen|]. split; [lia|].
  exists (i :: l). split; [|split; [|split]].
  - apply chain_step with (u := {| next := first b; mem := None |}).
    + apply index_ok_range, Hi.
    + apply list_lookup_insert_eq, Hlt.
    + simpl. eapply chain_ext; [exact Hchain|]. intros j Hj.
      pose proof (chain_range _ _ _ Hchain j Hj).
      rewrite list_lookup_insert_ne; [reflexivity|].
      intros Heq. apply Hnotin. replace i with j by lia. exact Hj.
  - apply list.NoDup_cons. auto.
  - simpl length. lia.
  - intros j Hj (u' & v' & Hu' & Hv'). simpl in Hu'.
    apply elem_of_cons in Hj as [->|Hj].
    + rewrite list_lookup_insert_eq in Hu' by exact Hlt.
      injection Hu' as <-. discriminate.
    + pose proof (chain_range _ _ _ Hchain j Hj).
      rewrite list_lookup_insert_ne in Hu'.
      * apply (Hfree j Hj). exists u', v'. auto.
      * intros Heq. apply Hnotin. replace i with j by lia. exact Hj.
Qed.

(** [release] of a live handle finds its block, frees its slot and keeps
    the pool well formed. *)
Lemma release_live p h ptr k i :
  pool_ok p h -> live_at p ptr k i ->
  exists b b',
    first_ p !! k = Some b /\
    release ptr p h =
      Ok () {| first_ := <[k := b']> (first_ p);
               total_block_ := total_block_ p |} h /\
    addr b' = addr b /\ used b' = used b - 1 /\ first b' = i /\
    units b' = <[Z.to_nat i := {| next := first b; mem := None |}]> (units b) /\
    block_ok b' /\
    pool_ok {| first_ := <[k := b']> (first_ p);
               total_block_ := total_block_ p |} h.
Proof.
  intros Hok (b & Hk & Hi & Hocc & ->).
  pose proof (proj1 Hok) as Hblocks. rewrite list.Forall_forall in Hblocks.
  pose proof (Hblocks b (list_elem_of_lookup_2 _ _ _ Hk)) as Hb.
  destruct (put_unit_ok b i Hb Hi Hocc)
    as (b' & Hput & Haddr & Hused & Hfirst & Hunits & Hb').
  pose proof (mem_addr_owned ObjectSize_pos b i Hi) as Howns.
  assert (Hfind : find_owner (mem_addr b i) (first_ p) = Some k).
  { apply (find_owner_first _ _ _ b Hk Howns).
    intros j bj Hj Hlook.
    apply (owner_unique p h _ k j b bj Hok Hk Hlook Howns). lia. }
  exists b, b'. split; [exact Hk|]. split.
  { unfold release. rewrite Hfind, Hk, Hput. reflexivity. }
  do 5 (split; [assumption|]).
  eapply pool_ok_insert; eassumption.
Qed.

(** *** removeBlock *)

Lemma drop_empty_0 l : drop_empty 0 l = l.
Proof. destruct l; reflexivity. Qed.

Lemma count_empty_cons b l :
  count_empty (b :: l) = (if used b =? 0 then 1 else 0) + count_empty l.
Proof.
  unfold count_empty. rewrite filter_cons.
  destruct (Z.eqb_spec (used b) 0); case_decide; try contradiction; simpl length; lia.
Qed.

Lemma count_empty_nonneg l : 0 <= count_empty l.
Proof. unfold count_empty. lia. Qed.

Lemma count_empty_le l : count_empty l <= Z.of_nat (length l).
Proof. unfold count_empty. pose proof (length_filter (fun b => used b = 0) l). lia. Qed.

Lemma count_empty_all_empty l :
  Forall (fun b => used b = 0) l -> count_empty l = Z.of_nat (length l).
Proof.
  induction 1 as [|b l Hb _ IH]; [reflexivity|].
  rewrite count_empty_cons, IH, Hb, Z.eqb_refl. simpl length. lia.
Qed.


Lemma first_empty_cons_empty n b l :
  used b = 0 -> first_empty (S n) (b :: l) = b :: first_empty n l.
Proof.
  intros Hb. unfold first_empty. rewrite filter_cons.
  case_decide; [reflexivity|contradiction].
Qed.

Lemma first_empty_cons_used n b l :
  used b <> 0 -> first_empty n (b :: l) = first_empty n l.
Proof.
  intros Hb. unfold first_empty. rewrite filter_cons.
  case_decide; [contradiction|reflexivity].
Qed.

Lemma first_empty_all_empty n l : Forall (fun b => used b = 0) (first_empty n l).
Proof.
  unfold first_empty. apply Forall_take, list.Forall_forall.
  intros b Hb. apply list_elem_of_filter in Hb. tauto.
Qed.

Lemma first_empty_length n l :
  Z.of_nat (length (first_empty n l)) = Z.min (Z.of_nat n) (count_empty l).
Proof. unfold first_empty, count_empty. rewrite length_take. lia. Qed.

(** The blocks kept and the blocks removed make up the list. *)
Lemma drop_empty_perm n l : l ≡ₚ drop_empty n l ++ first_empty n l.
Proof.
  revert n. induction l as [|b l IH]; intros n; simpl.
  - destruct n; reflexivity.
  - destruct n as [|n].
    + unfold first_empty. rewrite take_0, app_nil_r. reflexivity.
    + destruct (Z.eqb_spec (used b) 0) as [Hb|Hb].
      * rewrite (first_empty_cons_empty _ _ _ Hb).
        rewrite <- Permutation_middle. constructor. apply IH.
      * rewrite (first_empty_cons_used _ _ _ Hb). simpl. constructor. apply IH.
Qed.

Lemma drop_empty_sublist n l : sublist (drop_empty n l) l.
Proof.
  revert n. induction l as [|b l IH]; intros n; simpl; [constructor|].
  destruct n as [|n]; [reflexivity|].
  destruct (used b =? 0); [apply sublist_cons, IH|apply sublist_skip, IH].
Qed.

(** The loop of [removeBlock]: it removes the first [n_block - ret] empty
    blocks of the tail, or all of them when there are fewer. *)
Lemma removeBlock_loop_spec n blocks total ret h :
  0 <= ret < n -> ret + count_empty blocks < 2 ^ 64 ->
  count_empty blocks <= total < 2 ^ 64 ->
  let k := Z.to_nat (n - ret) in
  let m := Z.min (n - ret) (count_empty blocks) in
  removeBlock_loop n blocks total ret h =
  (drop_empty k blocks, total - m, ret + m, delete_all (first_empty k blocks) h).
Proof.
  revert total ret h.
  induction blocks as [|temp rest IH]; intros total ret h Hret Hbound Htotal.
  - cbv zeta. unfold count_empty, first_empty. simpl.
    destruct (Z.to_nat (n - ret)); simpl; tuple_eq.
  - cbv zeta.
    pose proof (count_empty_nonneg rest) as Hc.
    pose proof (count_empty_cons temp rest) as Hce.
    destruct (Z.to_nat (n - ret)) as [|k] eqn:Hk; [lia|].
    cbn [removeBlock_loop drop_empty].
    destruct (Z.eqb_spec (used temp) 0) as [Hempty|Hused].
    all: destruct (Z.eqb_spec (used temp) 0) in Hce; try contradiction.
    all: rewrite Hce in *; clear Hce.
    + rewrite (first_empty_cons_empty _ _ _ Hempty).
      rewrite !to_size_small by lia.
      destruct (Z.eqb_spec (ret + 1) n) as [Hlast|Hmore].
      * assert (k = 0%nat) as -> by lia.
        rewrite drop_empty_0. unfold first_empty. rewrite take_0.
        tuple_eq.
      * pose proof (IH (total - 1) (ret + 1) (heap_delete (addr temp) h)
                      ltac:(lia) ltac:(lia) ltac:(lia)) as IH'.
        cbv zeta in IH'. rewrite IH'.
        replace (Z.to_nat (n - (ret + 1))) with k by lia.
        tuple_eq.
    + rewrite (first_empty_cons_used _ _ _ Hused).
      pose proof (IH total ret h ltac:(lia) ltac:(lia) ltac:(lia)) as IH'.
      cbv zeta in IH'. rewrite IH', Hk. tuple_eq.
Qed.

Lemma kept_blocks_sublist n l : sublist (kept_blocks n l) l.
Proof.
  destruct l as [|b0 blocks]; simpl; [constructor|].
  destruct (head_goes n b0 blocks); simpl.
  - apply sublist_cons, drop_empty_sublist.
  - apply sublist_skip, drop_empty_sublist.
Qed.

Lemma kept_removed_perm n l : l ≡ₚ kept_blocks n l ++ removed_blocks n l.
Proof.
  destruct l as [|b0 blocks]; simpl; [reflexivity|].
  pose proof (drop_empty_perm (Z.to_nat n) blocks) as Hperm.
  destruct (head_goes n b0 blocks); simpl.
  - rewrite app_assoc, <- Hperm. apply Permutation_cons_append.
  - rewrite app_nil_r, <- Hperm. reflexivity.
Qed.

Lemma removed_blocks_all_empty n l :
  Forall (fun b => used b = 0) (removed_blocks n l).
Proof.
  destruct l as [|b0 blocks]; simpl; [constructor|].
  apply list.Forall_app. split; [apply first_empty_all_empty|].
  unfold head_goes. destruct (Z.eqb_spec (used b0) 0); simpl;
    [|constructor].
  destruct (count_empty blocks <? n); repeat constructor. assumption.
Qed.

Lemma removed_blocks_length n l :
  0 < n -> Z.of_nat (length (removed_blocks n l)) = Z.min n (count_empty l).
Proof.
  intros Hn. destruct l as [|b0 blocks]; simpl.
  { unfold count_empty. simpl. lia. }
  rewrite length_app, Nat2Z.inj_add, first_empty_length, count_empty_cons.
  pose proof (count_empty_nonneg blocks).
  unfold head_goes.
  destruct (Z.eqb_spec (used b0) 0), (Z.ltb_spec (count_empty blocks) n);
    simpl; lia.
Qed.


(** [removeBlock] on a pool whose counter equals the number of its blocks. *)
Lemma removeBlock_spec n p h :
  0 < n -> total_block_ p = Z.of_nat (length (first_ p)) ->
  total_block_ p < 2 ^ 64 ->
  let r := Z.min n (count_empty (first_ p)) in
  removeBlock n p h =
  Ok r {| first_ := kept_blocks n (first_ p);
          total_block_ := total_block_ p - r |}
     (delete_all (removed_blocks n (first_ p)) h).
Proof.
  intros Hn Htotal Hlt. cbv zeta. unfold removeBlock.
  destruct (Z.ltb_spec 0 n); [|lia].
  destruct p as [l total]. simpl in *.
  destruct l as [|b0 blocks].
  { simpl in Htotal. subst total. simpl. unfold count_empty. simpl.
    rewrite Z.min_r by lia. reflexivity. }
  destruct (Z.eqb_spec total 0) as [H0|_]; [simpl in Htotal; lia|].
  pose proof (count_empty_nonneg blocks) as Hc0.
  pose proof (count_empty_le blocks) as Hc1.
  simpl length in Htotal.
  rewrite removeBlock_loop_spec by lia.
  rewrite !Z.sub_0_r, !Z.add_0_l. rewrite count_empty_cons.
  unfold kept_blocks, removed_blocks, head_goes.
  replace (Z.min n (count_empty blocks) <? n) with (count_empty blocks <? n)
    by (destruct (Z.ltb_spec (count_empty blocks) n),
                 (Z.ltb_spec (Z.min n (count_empty blocks)) n); lia).
  destruct (Z.eqb_spec (used b0) 0) as [Hb0|Hb0],
           (Z.ltb_spec (count_empty blocks) n) as [Hfew|Hmany]; simpl.
  - rewrite (to_size_small (Z.min n (count_empty blocks) + 1)) by lia.
    rewrite (to_size_small (total - Z.min n (count_empty blocks) - 1)) by lia.
    unfold delete_all. rewrite foldl_app. simpl.
    replace (Z.min n (1 + count_empty blocks))
      with (Z.min n (count_empty blocks) + 1) by lia.
    replace (total - (Z.min n (count_empty blocks) + 1))
      with (total - Z.min n (count_empty blocks) - 1) by lia.
    reflexivity.
  - rewrite app_nil_r.
    replace (Z.min n (1 + count_empty blocks))
      with (Z.min n (count_empty blocks)) by lia.
    reflexivity.
  - rewrite app_nil_r. rewrite Z.add_0_l. reflexivity.
  - rewrite app_nil_r. rewrite Z.add_0_l. reflexivity.
Qed.

Lemma separated_NoDup (l : list Z) : separated l -> NoDup l.
Proof.
  intros Hsep. eapply NoDup_fmap_1.
  apply (separated_windows BlockCap_pos ObjectSize_pos), Hsep.
Qed.

Lemma block_live_delete_all removed h c :
  block_live h c -> (forall b, b ∈ removed -> addr b <> addr c) ->
  block_live (delete_all removed h) c.
Proof.
  revert h. induction removed as [|b l IH]; intros h Hc Hne; [exact Hc|].
  unfold delete_all. simpl. apply IH.
  - destruct Hc as (H0 & H1 & Hin). repeat split; try assumption.
    apply heap_delete_live. split; [exact Hin|]. simpl.
    intros Heq. apply (Hne b); [left|congruence].
  - intros b' Hb'. apply Hne. right. exact Hb'.
Qed.

Lemma removeBlock_pool_ok n r p h p' h' :
  pool_ok p h -> removeBlock n p h = Ok r p' h' -> pool_ok p' h'.
Proof.
  intros Hok Hrem.
  destruct (Z.ltb_spec 0 n) as [Hn|Hn].
  2:{ unfold removeBlock in Hrem. destruct (Z.ltb_spec 0 n); [lia|discriminate]. }
  pose proof (pool_ok_total BlockCap_pos ObjectSize_pos p h Hok) as [Htot _].
  destruct Hok as (Hblocks & Htotal & Hsep & Hlive).
  rewrite (removeBlock_spec n p h Hn Htotal ltac:(lia)) in Hrem.
  injection Hrem as <- <- <-.
  pose proof (kept_blocks_sublist n (first_ p)) as Hsub.
  pose proof (kept_removed_perm n (first_ p)) as Hperm.
  pose proof (removed_blocks_length n (first_ p) Hn) as Hlen.
  unfold pool_ok. simpl. split; [|split; [|split]].
  - rewrite list.Forall_forall in Hblocks |- *.
    intros b Hb. apply Hblocks. eapply elem_of_sublist; eassumption.
  - apply Permutation_length in Hperm. rewrite length_app in Hperm. lia.
  - eapply separated_sublist; [|exact Hsep]. apply fmap_sublist, Hsub.
  - assert (Hnd : NoDup (addr <$> kept_blocks n (first_ p) ++ removed_blocks n (first_ p))).
    { rewrite <- Hperm. apply separated_NoDup, Hsep. }
    rewrite fmap_app in Hnd. apply list.NoDup_app in Hnd as (_ & Hdisj & _).
    rewrite list.Forall_forall in Hlive |- *.
    intros c Hc. apply block_live_delete_all.
    + apply Hlive. eapply elem_of_sublist; eassumption.
    + intros b Hb Heq. apply (Hdisj (addr c)).
      * apply list_elem_of_fmap_2, Hc.
      * rewrite <- Heq. apply list_elem_of_fmap_2, Hb.
Qed.

Lemma resize_pool_ok n r p h p' h' :
  pool_ok p h -> resize n p h = Ok r p' h' -> pool_ok p' h'.
Proof.
  intros Hok. unfold resize.
  destruct (n =? total_block_ p).
  { intros [= <- <- <-]. exact Hok. }
  destruct (total_block_ p <? n).
  - destruct (addBlock _ p h) as [[] p1 h1| |] eqn:Hadd; simpl; try discriminate.
    intros [= <- <- <-]. eapply addBlock_pool_ok; eassumption.
  - destruct (removeBlock _ p h) as [r1 p1 h1| |] eqn:Hrem; simpl; try discriminate.
    intros [= <- <- <-]. eapply removeBlock_pool_ok; eassumption.
Qed.

Lemma empty_pool_ok h : pool_ok {| first_ := []; total_block_ := 0 |} h.
Proof. unfold pool_ok. simpl. repeat split; constructor. Qed.

Lemma ObjectPool_ctor_ok n h p h' :
  ObjectPool_ctor n h = Ok () p h' -> pool_ok p h'.
Proof.
  unfold ObjectPool_ctor. intros Hadd.
  eapply addBlock_pool_ok; [apply empty_pool_ok|exact Hadd].
Qed.

(** Every reachable pool is well formed. *)
Lemma reachable_pool_ok p h : reachable p h -> pool_ok p h.
Proof.
  induction 1 as [n h p h' Hctor
                 |n p h p' h' _ IH Hadd
                 |n r p h p' h' _ IH Hrem
                 |n r p h p' h' _ IH Hres
                 |v ptr p h p' h' _ IH Hget
                 |ptr p h p' h' _ IH Hlive Hrel].
  - eapply ObjectPool_ctor_ok, Hctor.
  - eapply addBlock_pool_ok; eassumption.
  - eapply removeBlock_pool_ok; eassumption.
  - eapply resize_pool_ok; eassumption.
  - eapply get_pool_ok; eassumption.
  - destruct Hlive as (k & i & Hlive).
    destruct (release_live p h ptr k i IH Hlive)
      as (b & b' & _ & Hrel' & _ & _ & _ & _ & _ & Hok').
    rewrite Hrel' in Hrel. injection Hrel as <- <-. exact Hok'.
Qed.

End Preservation.

(** ** The concrete free store obeys the laws *)

Lemma top_of_ge (live : list (Z * Z)) :
  4096 <= top_of live /\ forall b n, (b, n) ∈ live -> b + n <= top_of live.
Proof.
  induction live as [|[b0 n0] live [IH0 IH]]; simpl.
  - split; [lia|]. intros b n Hin. inversion Hin.
  - split; [lia|]. intros b n Hin.
    apply elem_of_cons in Hin as [[= -> ->]|Hin]; [lia|].
    specialize (IH b n Hin). lia.
Qed.

Lemma top_heap_laws : AllocatorLaws top_heap.
Proof.
  split; simpl.
  - intros sz live a h' e.
    destruct (2 ^ 64 <? top_of live + sz); [discriminate|].
    intros [= <- <-]. apply elem_of_cons.
  - intros sz live a h'.
    destruct (Z.ltb_spec (2 ^ 64) (top_of live + sz)) as [|Hle]; [discriminate|].
    intros [= <- <-]. destruct (top_of_ge live) as [H0 Hge].
    split; [lia|]. split; [exact Hle|].
    intros b n Hin. right. apply Hge, Hin.
  - intros a live e. rewrite list_elem_of_filter. tauto.
Qed.

(** * The claims of the specification *)

Section Claims.
Context {PP : PoolParams} {AL : Allocator} {Laws : AllocatorLaws AL}.
Hypothesis BlockCap_pos : 0 < BlockCap.
Hypothesis BlockCap_fits : BlockCap < 2 ^ 63.
Hypothesis ObjectSize_pos : 0 < ObjectSize.

(** *** The scan of [get] over well-formed blocks *)

(** The block that [get] takes is the first one from the head with
    [used < BlockCap], wherever in the list it stands. *)
Lemma first_fit_scan l k b :
  Forall block_ok l -> l !! k = Some b -> used b < BlockCap ->
  (forall j bj, (j < k)%nat -> l !! j = Some bj -> used bj = BlockCap) ->
  find_space l = Some k.
Proof.
  intros Hblocks Hk Hroom Hbefore. rewrite list.Forall_forall in Hblocks.
  apply (find_space_first l k b Hk).
  - destruct (Hblocks b (list_elem_of_lookup_2 _ _ _ Hk)) as (_ & Hu & _).
    rewrite to_size_small by lia. lia.
  - intros j bj Hj Hl. rewrite (Hbefore j bj Hj Hl). apply to_size_small. lia.
Qed.

Lemma all_full_scan l :
  Forall (fun b => used b = BlockCap) l -> find_space l = None.
Proof.
  intros Hfull. apply find_space_full.
  eapply list.Forall_impl; [exact Hfull|].
  intros b ->. apply to_size_small. lia.
Qed.

(** *** Calls that add blocks never shorten the list *)






(** C8. Every block created by [addBlock], and so by the constructor, is
    fully free and is put in front of the list: [used] is 0, [first] is 0,
    the link of slot [i] is [i + 1] (so the last link is the sentinel
    [BlockCap]), no slot holds an object, and the free list is
    0, 1, ..., BlockCap - 1.  The new blocks come before the old ones, so a
    new block is the head. *)
Theorem addBlock_prepends_fully_free_blocks n p h p' h' :
  addBlock n p h = Ok () p' h' ->
  exists news,
    first_ p' = news ++ first_ p /\ news <> [] /\
    Z.of_nat (length news) = n /\
    Forall (fun b =>
              used b = 0 /\ first b = 0 /\
              free_units b = Some (seqZ 0 BlockCap) /\
              forall i, 0 <= i < BlockCap ->
                units b !! Z.to_nat i = Some {| next := i + 1; mem := None |})
           news.
Proof.
  intros Hadd.
  destruct (addBlock_Ok BlockCap_fits _ _ _ _ _ Hadd)
    as (Hn & _ & news & Hfirst & Hlen & Hfree).
  exists news. split; [exact Hfirst|]. split.
  { intros ->. simpl in Hlen. lia. }
  split; [lia|].
  eapply list.Forall_impl; [exact Hfree|]. intros b Hb.
  pose proof Hb as (Hused & Hf & _).
  split; [exact Hused|]. split; [exact Hf|]. split.
  - apply fully_free_free_units; [lia|exact Hb].
  - intros i Hi. apply fully_free_lookup; assumption.
Qed.

(** C9. [addBlock(0)] and [removeBlock(0)] throw the block-count exception
    and leave the pool as it was; for [n > 0], [addBlock(n)] never throws
    that exception and [removeBlock(n)] throws nothing at all. *)
Theorem zero_block_count_is_rejected p h :
  addBlock 0 p h = Throw UnavailableBlockCountException p h /\
  removeBlock 0 p h = Throw UnavailableBlockCountException p h /\
  forall n, 0 < n ->
    (forall p' h', addBlock n p h <> Throw UnavailableBlockCountException p' h') /\
    (forall e p' h', removeBlock n p h <> Throw e p' h').
Proof.
  split; [reflexivity|]. split; [reflexivity|].
  intros n Hn. split.
  - intros p' h'. unfold addBlock.
    destruct (Z.ltb_spec 0 n); [|lia].
    destruct (addBlock_loop _ _ _) as [[? ?]|[? ?]]; discriminate.
  - intros e p' h'. unfold removeBlock.
    destruct (Z.ltb_spec 0 n); [|lia].
    destruct (total_block_ p =? 0); [discriminate|].
    destruct (first_ p) as [|b0 blocks]; [discriminate|].
    destruct (removeBlock_loop _ _ _ _ _) as [[[rest total] ret] h1].
    destruct (_ && _); discriminate.
Qed.

(** C6. [capacity()] returns [total_block_ * BlockCap] (as a [size_t]) and
    changes nothing.  In a well-formed pool the product does not wrap; a
    pool constructed with [n] blocks has capacity [n * BlockCap], and after
    a further [addBlock(k)] it has capacity [(n + k) * BlockCap]. *)
Theorem capacity_is_blocks_times_BlockCap :
  (forall p h, capacity p h = Ok (to_size (total_block_ p * BlockCap)) p h) /\
  (forall p h, pool_ok p h -> capacity p h = Ok (total_block_ p * BlockCap) p h) /\
  (forall n h p h',
     ObjectPool_ctor n h = Ok () p h' ->
     total_block_ p = n /\ capacity p h' = Ok (n * BlockCap) p h') /\
  (forall n h p h' k p'' h'',
     ObjectPool_ctor n h = Ok () p h' -> addBlock k p h' = Ok () p'' h'' ->
     0 < k /\ total_block_ p'' = n + k /\
     capacity p'' h'' = Ok ((n + k) * BlockCap) p'' h'').
Proof.
  assert (Hcap : forall p h, pool_ok p h ->
            capacity p h = Ok (total_block_ p * BlockCap) p h).
  { intros p h Hok. unfold capacity.
    destruct (pool_ok_total BlockCap_pos ObjectSize_pos p h Hok) as [_ Hprod].
    rewrite to_size_small by exact Hprod. reflexivity. }
  assert (Hgrow : forall k p h p' h', pool_ok p h -> addBlock k p h = Ok () p' h' ->
            0 < k /\ total_block_ p' = total_block_ p + k /\ pool_ok p' h').
  { intros k p h p' h' Hok Hadd.
    pose proof (addBlock_pool_ok BlockCap_pos BlockCap_fits ObjectSize_pos
                  _ _ _ _ _ Hok Hadd) as Hok'.
    destruct (addBlock_Ok BlockCap_fits _ _ _ _ _ Hadd)
      as (Hk & _ & news & Hfirst & Hlen & _).
    split; [exact Hk|]. split; [|exact Hok'].
    destruct Hok as (_ & -> & _), Hok' as (_ & -> & _).
    rewrite Hfirst, length_app, Hlen. lia. }
  assert (Hctor : forall n h p h', ObjectPool_ctor n h = Ok () p h' ->
            total_block_ p = n /\ pool_ok p h').
  { intros n h p h' Hc.
    destruct (Hgrow n _ h p h' (empty_pool_ok h) Hc) as (_ & Htot & Hok).
    simpl in Htot. split; [lia|exact Hok]. }
  split; [reflexivity|]. split; [exact Hcap|]. split.
  - intros n h p h' Hc. destruct (Hctor _ _ _ _ Hc) as [Htot Hok].
    split; [exact Htot|]. rewrite (Hcap p h' Hok), Htot. reflexivity.
  - intros n h p h' k p'' h'' Hc Hadd.
    destruct (Hctor _ _ _ _ Hc) as [Htot Hok].
    destruct (Hgrow _ _ _ _ _ Hok Hadd) as (Hk & Htot' & Hok').
    split; [exact Hk|]. split; [lia|].
    rewrite (Hcap p'' h'' Hok'), Htot', Htot. reflexivity.
Qed.


(** C4. For [n > 0] and a pool whose counter equals the number of its
    blocks, [removeBlock(n)] returns [r = min(n, number of empty blocks)],
    lowers [total_block_] by [r] and removes exactly [r] blocks, all of them
    with [used == 0]: the blocks kept and the blocks removed make up the old
    list, the blocks kept stay in their order, and every block with
    [used != 0] is kept.  The tail of the list is searched first: when it
    holds [n] empty blocks or more the head block stays the head. *)
Theorem removeBlock_removes_min_n_empty n p h :
  0 < n ->
  total_block_ p = Z.of_nat (length (first_ p)) -> total_block_ p < 2 ^ 64 ->
  let r := Z.min n (count_empty (first_ p)) in
  let kept := kept_blocks n (first_ p) in
  let removed := removed_blocks n (first_ p) in
  removeBlock n p h =
    Ok r {| first_ := kept; total_block_ := total_block_ p - r |}
       (delete_all removed h) /\
  first_ p ≡ₚ kept ++ removed /\ sublist kept (first_ p) /\
  Z.of_nat (length removed) = r /\
  Forall (fun b => used b = 0) removed /\
  (forall b, b ∈ first_ p -> used b <> 0 -> b ∈ kept) /\
  (forall b0 blocks, first_ p = b0 :: blocks -> n <= count_empty blocks ->
                     kept = b0 :: drop_empty (Z.to_nat n) blocks).
Proof.
  intros Hn Htotal Hlt. cbv zeta.
  pose proof (kept_removed_perm n (first_ p)) as Hperm.
  pose proof (removed_blocks_all_empty n (first_ p)) as Hempty.
  split; [apply removeBlock_spec; assumption|].
  split; [exact Hperm|]. split; [apply kept_blocks_sublist|].
  split; [apply removed_blocks_length, Hn|]. split; [exact Hempty|]. split.
  - intros b Hb Hused. rewrite Hperm in Hb.
    apply elem_of_app in Hb as [Hb|Hb]; [exact Hb|].
    rewrite list.Forall_forall in Hempty. specialize (Hempty b Hb). contradiction.
  - intros b0 blocks -> Hmany. unfold kept_blocks, head_goes.
    destruct (Z.ltb_spec (count_empty blocks) n); [lia|].
    rewrite andb_false_r. reflexivity.
Qed.

(** C3. In every pool reachable through the constructor, [addBlock],
    [removeBlock], [resize], [get] and [release] of live handles, the free
    list of every block, walked from [first] along the links, ends at the
    sentinel and consists of exactly [BlockCap - used] distinct slot indices,
    none of which holds a live object. *)
Theorem free_list_invariant p h b :
  reachable p h -> b ∈ first_ p ->
  exists l, free_units b = Some l /\ NoDup l /\
            Z.of_nat (length l) = BlockCap - used b /\
            (forall i, i ∈ l -> 0 <= i < BlockCap /\ ~ occupied b i).
Proof.
  intros Hreach Hb.
  pose proof (reachable_pool_ok BlockCap_pos BlockCap_fits ObjectSize_pos
                p h Hreach) as (Hblocks & _).
  rewrite list.Forall_forall in Hblocks.
  destruct (Hblocks b Hb) as (_ & _ & l & Hl & Hnd & Hlen & Hfree).
  exists l. repeat split; try assumption.
  - eapply chain_range; [eapply free_list_chain, Hl|assumption].
  - eapply chain_range; [eapply free_list_chain, Hl|assumption].
  - apply Hfree. assumption.
Qed.

(** C7. A handle returned by [get] is live.  Releasing a live handle
    succeeds and puts its slot at the head of the free list of its block,
    which then has [used < BlockCap]; if that block is the first one from
    the head with [used < BlockCap], that is, if every block before it in
    the list is full, the next [get] builds the new object in the same
    slot and returns the same address. *)
Theorem released_slot_is_reused :
  (forall v p h ptr p' h',
     pool_ok p h -> get v p h = Ok ptr p' h' ->
     pool_ok p' h' /\ live_handle p' ptr) /\
  (forall p h ptr k i,
     pool_ok p h -> live_at p ptr k i ->
     exists b1,
       let p1 := {| first_ := <[k := b1]> (first_ p);
                    total_block_ := total_block_ p |} in
       release ptr p h = Ok () p1 h /\ pool_ok p1 h /\
       first b1 = i /\ (exists l, free_units b1 = Some (i :: l)) /\
       ~ occupied b1 i /\ used b1 < BlockCap /\
       forall v,
         (forall j bj, (j < k)%nat -> first_ p1 !! j = Some bj ->
                       used bj = BlockCap) ->
         exists b2,
           let p2 := {| first_ := <[k := b2]> (first_ p);
                        total_block_ := total_block_ p |} in
           get v p1 h = Ok ptr p2 h /\ live_at p2 ptr k i /\
           exists u, units b2 !! Z.to_nat i = Some u /\ mem u = Some v).
Proof.
  split.
  { intros v p h ptr p' h'.
    apply (get_pool_ok BlockCap_pos BlockCap_fits ObjectSize_pos). }
  intros p h ptr k i Hok Hlive.
  destruct (release_live BlockCap_pos BlockCap_fits ObjectSize_pos
              p h ptr k i Hok Hlive)
    as (b & b1 & Hk & Hrel & Haddr & Hused & Hfirst & Hunits & Hb1 & Hok1).
  destruct Hlive as (b0 & Hk0 & Hi & Hocc & Hptr).
  assert (b0 = b) as -> by congruence.
  assert (Hklt : (k < length (first_ p))%nat) by (eapply lookup_lt_Some, Hk).
  assert (Hilt : (Z.to_nat i < length (units b))%nat).
  { destruct Hocc as (u & _ & Hu & _). eapply lookup_lt_Some, Hu. }
  assert (Hroom : used b1 < BlockCap).
  { pose proof (proj1 Hok) as Hblocks. rewrite list.Forall_forall in Hblocks.
    destruct (Hblocks b (list_elem_of_lookup_2 _ _ _ Hk)) as (_ & Hu & _). lia. }
  exists b1. cbv zeta. split; [exact Hrel|]. split; [exact Hok1|].
  split; [exact Hfirst|]. split; [|split; [|split; [exact Hroom|]]].
  - pose proof Hb1 as (_ & _ & l & Hl & _).
    pose proof (free_list_chain _ _ _ _ Hl) as Hchain.
    rewrite Hfirst in Hchain.
    inversion Hchain as [Hend Hnil|i' u l' _ _ _ Hi' Hl']; [lia|].
    subst. exists l'. exact Hl.
  - intros (u & v & Hu & Hv). rewrite Hunits in Hu.
    rewrite list_lookup_insert_eq in Hu by exact Hilt.
    injection Hu as <-. discriminate.
  - intros v Hbefore.
    assert (Hfind : find_space (<[k := b1]> (first_ p)) = Some k).
    { apply (first_fit_scan _ k b1 (proj1 Hok1));
        [apply list_lookup_insert_eq, Hklt|exact Hroom|exact Hbefore]. }
    destruct (get_room BlockCap_pos BlockCap_fits v _ h k (proj1 Hok1) Hfind)
      as (b' & b2 & Hk' & _ & _ & Hget & Haddr2 & _ & _ & _ & _ & Hslot & _).
    simpl in Hk', Hget.
    rewrite list_lookup_insert_eq in Hk' by exact Hklt.
    injection Hk' as <-.
    rewrite list_insert_insert_eq in Hget. rewrite Hfirst in Hget, Hslot.
    assert (Hsame : mem_addr b1 i = ptr).
    { rewrite Hptr. apply mem_addr_addr, Haddr. }
    rewrite Hsame in Hget.
    exists b2. split; [exact Hget|]. split.
    + exists b2. simpl. split; [apply list_lookup_insert_eq, Hklt|].
      split; [exact Hi|]. split.
      * eexists _, v. split; [exact Hslot|reflexivity].
      * rewrite <- Hsame. symmetry. apply mem_addr_addr, Haddr2.
    + eexists. split; [exact Hslot|reflexivity].
Qed.

(** *** A fresh block handing out its slots in order *)

Lemma fully_free_filled b : fully_free b -> filled_to 0 b.
Proof.
  intros Hb. pose proof Hb as (Hused & Hfirst & _).
  split; [exact Hfirst|]. split; [exact Hused|].
  intros i Hi. apply fully_free_lookup; [exact Hb|lia].
Qed.

Lemma get_filled v b j t h :
  filled_to j b -> 0 <= j < BlockCap ->
  exists b',
    get v {| first_ := [b]; total_block_ := t |} h =
      Ok (mem_addr b j) {| first_ := [b']; total_block_ := t |} h /\
    addr b' = addr b /\ filled_to (j + 1) b'.
Proof.
  intros (Hfirst & Hused & Hunits) Hj.
  pose proof (Hunits j ltac:(lia)) as Hu.
  eexists. split; [|split].
  - rewrite (get_unfold BlockCap_pos). cbn [first_ find_space].
    rewrite Hused, (to_size_small j) by lia.
    destruct (Z.eqb_spec j BlockCap); [lia|].
    unfold get_from, take_unit. cbn [first_ lookup list_lookup].
    rewrite Hfirst.
    replace (index_ok j) with true by (symmetry; apply index_ok_range; lia).
    rewrite Hu. cbn [mbind option_bind next]. reflexivity.
  - reflexivity.
  - unfold filled_to. cbn [first_ used first units]. split; [reflexivity|].
    split; [rewrite Hused; apply (to_idx_small BlockCap_fits); lia|].
    intros i Hi. rewrite list_lookup_insert_ne by lia. apply Hunits. lia.
Qed.

Lemma get_all_filled vs b j t h :
  filled_to j b -> 0 <= j -> j + Z.of_nat (length vs) <= BlockCap ->
  exists b',
    get_all vs {| first_ := [b]; total_block_ := t |} h =
      Ok (mem_addr b <$> seqZ j (Z.of_nat (length vs)))
         {| first_ := [b']; total_block_ := t |} h /\
    addr b' = addr b /\ filled_to (j + Z.of_nat (length vs)) b'.
Proof.
  revert b j. induction vs as [|v vs IH]; intros b j Hb Hj Hlen.
  - exists b. simpl. rewrite Z.add_0_r. auto.
  - simpl length in *.
    destruct (get_filled v b j t h Hb ltac:(lia)) as (b1 & Hget & Haddr1 & Hb1).
    destruct (IH b1 (j + 1) Hb1 ltac:(lia) ltac:(lia)) as (b' & Hall & Haddr & Hb').
    exists b'. split; [|split].
    + cbn [get_all]. rewrite Hget. cbn [bind]. rewrite Hall. cbn [bind].
      rewrite (seqZ_cons j) by lia. rewrite fmap_cons.
      replace (Z.succ j) with (j + 1) by lia.
      replace (Z.pred (Z.of_nat (S (length vs)))) with (Z.of_nat (length vs)) by lia.
      do 2 f_equal. apply list_fmap_ext. intros _ i _.
      apply mem_addr_addr, Haddr1.
    + congruence.
    + replace (j + Z.of_nat (S (length vs))) with (j + 1 + Z.of_nat (length vs)) by lia.
      exact Hb'.
Qed.

(** C1. On a freshly constructed pool with one block, any [BlockCap] or
    fewer consecutive calls of [get] all return (the addresses of slots
    0, 1, ... of the one block) and leave [total_block_] at 1 with the one
    block; once [BlockCap] calls were made, the next call asks the free
    store for one block, and if it gets one, [total_block_] is 2, the new
    block is the head and the returned address lies in it.  In general,
    in a list of well-formed blocks [get] takes the first block from the
    head with [used < BlockCap], however many full blocks come before it,
    and changes neither the list structure nor [total_block_]; when every
    block is full (or there is none) it adds exactly one block, which
    becomes the head and serves the call. *)
Theorem fresh_pool_gets h p0 h0 (vs : list T) :
  ObjectPool_ctor 1 h = Ok () p0 h0 ->
  Z.of_nat (length vs) <= BlockCap ->
  exists b0 b1,
    let p1 := {| first_ := [b1]; total_block_ := 1 |} in
    first_ p0 = [b0] /\ total_block_ p0 = 1 /\
    get_all vs p0 h0 = Ok (mem_addr b0 <$> seqZ 0 (Z.of_nat (length vs))) p1 h0 /\
    addr b1 = addr b0 /\ used b1 = Z.of_nat (length vs) /\
    Forall (fun ptr => owns ptr b0 = true)
           (mem_addr b0 <$> seqZ 0 (Z.of_nat (length vs))) /\
    (Z.of_nat (length vs) = BlockCap ->
     forall v,
       match heap_new sizeof_MemoryBlock h0 with
       | Some (a, h1) =>
           exists b2 ptr,
             get v p1 h0 = Ok ptr {| first_ := [b2; b1]; total_block_ := 2 |} h1 /\
             addr b2 = a /\ used b2 = 1 /\ owns ptr b2 = true /\
             ptr = mem_addr b2 0
       | None => get v p1 h0 = Throw bad_alloc p1 h0
       end) /\
    (forall p h k b v,
       Forall block_ok (first_ p) ->
       first_ p !! k = Some b -> used b < BlockCap ->
       (forall j bj, (j < k)%nat -> first_ p !! j = Some bj ->
                     used bj = BlockCap) ->
       exists b',
         get v p h =
           Ok (mem_addr b (first b))
              {| first_ := <[k := b']> (first_ p);
                 total_block_ := total_block_ p |} h /\
         owns (mem_addr b (first b)) b = true /\
         addr b' = addr b /\ used b' = used b + 1) /\
    (forall p h v,
       Forall (fun b => used b = BlockCap) (first_ p) ->
       match heap_new sizeof_MemoryBlock h with
       | Some (a, h1) =>
           exists b2,
             get v p h =
               Ok (mem_addr b2 0)
                  {| first_ := b2 :: first_ p;
                     total_block_ := to_size (total_block_ p + 1) |} h1 /\
             addr b2 = a /\ used b2 = 1 /\ owns (mem_addr b2 0) b2 = true
       | None => get v p h = Throw bad_alloc p h
       end).
Proof.
  intros Hctor Hlen.
  unfold ObjectPool_ctor in Hctor. rewrite addBlock_one in Hctor.
  destruct (heap_new sizeof_MemoryBlock h) as [[a0 h0']|]; [|discriminate].
  injection Hctor as <- <-. cbn [first_ total_block_].
  pose proof (fully_free_filled _ (fresh_block_fully_free BlockCap_fits a0)) as Hfill.
  destruct (get_all_filled vs (fresh_block a0) 0 (to_size (0 + 1)) h0' Hfill
              ltac:(lia) ltac:(lia)) as (b1 & Hall & Haddr & Hb1).
  change (to_size (0 + 1)) with 1 in *. rewrite Z.add_0_l in Hb1.
  exists (fresh_block a0), b1. cbv zeta.
  split; [reflexivity|]. split; [reflexivity|]. split; [exact Hall|].
  split; [exact Haddr|]. split; [apply Hb1|]. split; [|split; [|split]].
  - apply list.Forall_forall. intros ptr Hptr.
    apply list_elem_of_fmap in Hptr as (i & -> & Hi).
    apply elem_of_seqZ in Hi. apply (mem_addr_owned ObjectSize_pos). lia.
  - intros Hfull v.
    assert (Hfind : find_space [b1] = None).
    { destruct Hb1 as (_ & Hused & _). cbn [find_space].
      rewrite Hused, Hfull, to_size_small by lia.
      rewrite Z.eqb_refl. reflexivity. }
    destruct (heap_new sizeof_MemoryBlock h0') as [[a h1]|] eqn:Hnew.
    + destruct (get_grow BlockCap_pos BlockCap_fits v
                  {| first_ := [b1]; total_block_ := 1 |} h0' a h1 Hfind Hnew)
        as (b2 & Hget & Haddr2 & Hused2 & _).
      exists b2, (mem_addr (fresh_block a) 0).
      cbn [first_ total_block_] in Hget.
      change (to_size (1 + 1)) with 2 in Hget.
      assert (Hsame : mem_addr (fresh_block a) 0 = mem_addr b2 0)
        by (symmetry; apply mem_addr_addr; rewrite Haddr2; reflexivity).
      split; [exact Hget|]. split; [exact Haddr2|]. split; [exact Hused2|].
      split; [|exact Hsame].
      rewrite Hsame. apply (mem_addr_owned ObjectSize_pos). lia.
    + apply (get_grow_fail BlockCap_pos v
               {| first_ := [b1]; total_block_ := 1 |} h0' Hfind Hnew).
  - intros p h1 k b v Hblocks Hk Hroom Hbefore.
    pose proof (first_fit_scan _ _ _ Hblocks Hk Hroom Hbefore) as Hfind.
    destruct (get_room BlockCap_pos BlockCap_fits v p h1 k Hblocks Hfind)
      as (b0' & b' & Hk' & _ & _ & Hget & Haddr' & Hused' & _ & _ & Hr & _).
    assert (b0' = b) as -> by congruence.
    exists b'. split; [exact Hget|]. split; [|split; assumption].
    apply (mem_addr_owned ObjectSize_pos). exact Hr.
  - intros p h1 v Hfull. pose proof (all_full_scan _ Hfull) as Hfind.
    destruct (heap_new sizeof_MemoryBlock h1) as [[a h2]|] eqn:Hnew.
    + destruct (get_grow BlockCap_pos BlockCap_fits v p h1 a h2 Hfind Hnew)
        as (b2 & Hget & Haddr2 & Hused2 & _).
      assert (Hsame : mem_addr (fresh_block a) 0 = mem_addr b2 0)
        by (symmetry; apply mem_addr_addr; rewrite Haddr2; reflexivity).
      exists b2. rewrite <- Hsame. split; [exact Hget|].
      split; [exact Haddr2|]. split; [exact Hused2|].
      rewrite Hsame. apply (mem_addr_owned ObjectSize_pos). lia.
    + rewrite (get_grow_fail BlockCap_pos v p h1 Hfind Hnew).
      destruct p; reflexivity.
Qed.

(** C2, amended.  [release(ptr)] throws (and then throws the
    unknown-pointer exception, leaving the pool as it was) exactly when no
    block has [ptr] strictly inside its slot array, i.e. after the first
    byte of slot 0 and before the first byte past slot [BlockCap - 1].
    When [ptr] is the address of the object storage of slot [i] of the
    first block [b] whose array contains it, [release] returns normally:
    that block's [used] is decremented, the link of slot [i] becomes the old
    [first], [first] becomes [i], and the object of the slot is destroyed. *)
Theorem release_unknown_pointer_iff_outside_open_range p h ptr :
  ((exists e p' h', release ptr p h = Throw e p' h') <->
   (forall b, b ∈ first_ p -> ~ in_open_range ptr b)) /\
  (forall e p' h', release ptr p h = Throw e p' h' ->
                   e = UnavailableMemoryException /\ p' = p /\ h' = h) /\
  (forall k b i u,
     first_ p !! k = Some b ->
     (forall j bj, (j < k)%nat -> first_ p !! j = Some bj ->
                   ~ in_open_range ptr bj) ->
     0 <= i < BlockCap -> units b !! Z.to_nat i = Some u ->
     ptr = mem_addr b i ->
     in_open_range ptr b /\
     release ptr p h =
       Ok () {| first_ :=
                  <[k := {| addr := addr b; first := i;
                            used := to_idx (used b - 1);
                            units := <[Z.to_nat i :=
                                         {| next := first b; mem := None |}]>
                                       (units b) |}]> (first_ p);
                total_block_ := total_block_ p |} h /\
     (0 <= used b <= BlockCap -> to_idx (used b - 1) = used b - 1)).
Proof.
  assert (Hthrow : forall e p' h', release ptr p h = Throw e p' h' ->
            find_owner ptr (first_ p) = None /\
            e = UnavailableMemoryException /\ p' = p /\ h' = h).
  { intros e p' h'. unfold release.
    destruct (find_owner ptr (first_ p)) as [k|].
    - destruct (first_ p !! k) as [blk|]; [|discriminate].
      destruct (put_unit ptr blk); discriminate.
    - intros [= <- <- <-]. auto. }
  split; [split|split].
  - intros (e & p' & h' & Hrel). apply Hthrow in Hrel as (Hnone & _).
    apply find_owner_None in Hnone. rewrite list.Forall_forall in Hnone.
    intros b Hb Hrange. apply owns_range in Hrange.
    rewrite (Hnone b Hb) in Hrange. discriminate.
  - intros Hout. exists UnavailableMemoryException, p, h.
    unfold release.
    assert (Hnone : find_owner ptr (first_ p) = None).
    { apply find_owner_None, list.Forall_forall. intros b Hb.
      destruct (owns ptr b) eqn:Ho; [|reflexivity].
      apply owns_range in Ho. destruct (Hout b Hb Ho). }
    rewrite Hnone. reflexivity.
  - intros e p' h' Hrel. apply Hthrow in Hrel. tauto.
  - intros k b i u Hk Hbefore Hi Hu ->.
    pose proof (mem_addr_owned ObjectSize_pos b i Hi) as Howns.
    split; [apply owns_range, Howns|]. split.
    + unfold release.
      rewrite (find_owner_first (mem_addr b i) (first_ p) k b Hk Howns).
      * rewrite Hk, (put_unit_slot BlockCap_fits ObjectSize_pos b i u Hi Hu).
        reflexivity.
      * intros j bj Hj Hlook. destruct (owns (mem_addr b i) bj) eqn:Ho;
          [|reflexivity].
        apply owns_range in Ho. destruct (Hbefore j bj Hj Hlook Ho).
    + intros Hused. apply (to_idx_small BlockCap_fits). lia.
Qed.

(** C5, as the code behaves.  The move constructor swaps the members of
    the new pool with those of the source without initialising them first:
    the new pool gets the source's list and counter, and the source is left
    with whatever the storage of the new pool held. *)
Theorem move_leaves_source_with_uninitialised_members uninit op :
  let '(new_pool, source) := ObjectPool_move uninit op in
  first_ new_pool = first_ op /\ total_block_ new_pool = total_block_ op /\
  first_ source = first_ uninit /\ total_block_ source = total_block_ uninit.
Proof. simpl. auto. Qed.

End Claims.

(** * The claims at the pool of the specification's scenarios *)

Lemma example_BlockCap_pos : 0 < @BlockCap example_params.
Proof. reflexivity. Qed.

Lemma example_BlockCap_fits : @BlockCap example_params < 2 ^ 63.
Proof. reflexivity. Qed.

Lemma example_ObjectSize_pos : 0 < @ObjectSize example_params.
Proof. reflexivity. Qed.

(** [example_pool] is what the constructor and one [get] build. *)
Lemma example_pool_built :
  bind (ObjectPool_ctor (PP := example_params) 1 empty_heap)
       (fun _ p h => get example_object p h)
  = Ok 4107 example_pool example_heap.
Proof. reflexivity. Qed.

Lemma example_pool_reachable :
  reachable (PP := example_params) (AL := top_heap) example_pool example_heap.
Proof.
  eapply (reach_get example_object 4107);
    [eapply (reach_ctor 1 empty_heap)|];
    reflexivity.
Qed.

Lemma example_pool_ok :
  pool_ok (PP := example_params) (AL := top_heap) example_pool example_heap.
Proof.
  apply (reachable_pool_ok (Laws := top_heap_laws)
           example_BlockCap_pos example_BlockCap_fits example_ObjectSize_pos).
  apply example_pool_reachable.
Qed.

Lemma get_all_reachable {PP : PoolParams} {AL : Allocator}
    (vs : list T) p h ptrs p' h' :
  reachable p h -> get_all vs p h = Ok ptrs p' h' -> reachable p' h'.
Proof.
  revert p h ptrs. induction vs as [|v vs IH]; intros p h ptrs Hreach; simpl.
  - intros [= _ <- <-]. exact Hreach.
  - destruct (get v p h) as [a p1 h1| |] eqn:Hget; simpl; try discriminate.
    destruct (get_all vs p1 h1) as [l p2 h2| |] eqn:Hall; simpl;
      try discriminate.
    intros [= _ <- <-]. eapply IH; [|exact Hall].
    eapply reach_get; [exact Hreach|exact Hget].
Qed.

(** [full_pool] is what the constructor and eight calls of [get] build;
    [older_room_pool] is [full_pool] after [release(4125)]. *)
Lemma full_pool_built :
  bind (ObjectPool_ctor (PP := example_params) 1 empty_heap)
       (fun _ p h => get_all (replicate 8 example_object) p h)
  = Ok [4107; 4116; 4125; 4134; 4155; 4164; 4173; 4182] full_pool two_block_heap.
Proof. reflexivity. Qed.

Lemma full_pool_reachable :
  reachable (PP := example_params) (AL := top_heap) full_pool two_block_heap.
Proof.
  eapply (get_all_reachable (replicate 8 example_object));
    [eapply (reach_ctor 1 empty_heap)|];
    reflexivity.
Qed.

Lemma full_pool_ok :
  pool_ok (PP := example_params) (AL := top_heap) full_pool two_block_heap.
Proof.
  apply (reachable_pool_ok (Laws := top_heap_laws)
           example_BlockCap_pos example_BlockCap_fits example_ObjectSize_pos).
  apply full_pool_reachable.
Qed.

Lemma full_pool_live_at : live_at full_pool 4125 1 2.
Proof.
  exists full_older. split; [reflexivity|]. split; [split; [lia|reflexivity]|].
  split; [|reflexivity]. eexists _, _. split; reflexivity.
Qed.

Lemma full_pool_release :
  release 4125 full_pool two_block_heap = Ok () older_room_pool two_block_heap.
Proof. reflexivity. Qed.

Lemma older_room_pool_ok :
  pool_ok (PP := example_params) (AL := top_heap) older_room_pool two_block_heap.
Proof.
  apply (reachable_pool_ok (Laws := top_heap_laws)
           example_BlockCap_pos example_BlockCap_fits example_ObjectSize_pos).
  eapply (reach_release 4125);
    [apply full_pool_reachable
    |exists 1%nat, 2; apply full_pool_live_at
    |apply full_pool_release].
Qed.

(** C1 at the examples: four calls of [get] on the fresh one-block pool;
    and [get] on [older_room_pool], whose head block is full: the call is
    served by the older block, at 4125, and no block is added. *)
Lemma fresh_pool_gets_witness :
  (exists p0 h0 ptrs p1,
     ObjectPool_ctor (PP := example_params) 1 empty_heap = Ok () p0 h0 /\
     get_all ([1; 2; 3; 4]%nat : list (@T example_params)) p0 h0 = Ok ptrs p1 h0 /\
     total_block_ p1 = 1) /\
  (exists b',
     get other_object older_room_pool two_block_heap =
       Ok 4125 {| first_ := [full_head; b']; total_block_ := 2 |} two_block_heap /\
     used b' = 4).
Proof.
  destruct (@fresh_pool_gets example_params top_heap
              example_BlockCap_pos example_BlockCap_fits example_ObjectSize_pos
              empty_heap
              {| first_ := [fresh_block 4096]; total_block_ := 1 |}
              example_heap
              ([1; 2; 3; 4]%nat : list (@T example_params))
              eq_refl ltac:(simpl; lia))
    as (b0 & b1 & _ & _ & Hall & _ & _ & _ & _ & Hfit & _).
  split.
  - eexists _, _, _, _. split; [reflexivity|]. split; [exact Hall|reflexivity].
  - destruct (Hfit older_room_pool two_block_heap 1%nat older_with_room
                other_object (proj1 older_room_pool_ok) eq_refl eq_refl)
      as (b' & Hget & _ & _ & Hused).
    { intros [|j] bj Hj Hl; [injection Hl as <-; reflexivity|lia]. }
    exists b'. split; [exact Hget|exact Hused].
Defined.

(** The claim C2 fails as it is worded: the first byte of slot 0 of the
    block of [example_pool], address 4106, lies in the slot storage range,
    and [release] throws the unknown-pointer exception for it.  Address 4108
    lies in the range too, inside the object of slot 0, and [release]
    neither throws nor pushes a slot: the pointer difference it takes is
    undefined. *)
Lemma release_rejects_first_byte_of_slot_0 :
  in_storage_range 4106 example_block /\
  release 4106 example_pool example_heap =
    Throw UnavailableMemoryException example_pool example_heap /\
  ~ ((exists e p' h', release 4106 example_pool example_heap = Throw e p' h')
     <-> (forall b, b ∈ first_ example_pool -> ~ in_storage_range 4106 b)) /\
  in_storage_range 4108 example_block /\
  release 4108 example_pool example_heap = Undefined.
Proof.
  assert (Hin : in_storage_range 4106 example_block).
  { unfold in_storage_range. vm_compute. split; [discriminate|reflexivity]. }
  split; [exact Hin|]. split; [reflexivity|]. split; [|split].
  - intros [Hthrow _].
    apply (Hthrow ltac:(eexists _, _, _; reflexivity) example_block);
      [apply list_elem_of_here|exact Hin].
  - unfold in_storage_range. vm_compute. split; [discriminate|reflexivity].
  - reflexivity.
Qed.

(** C2 (amended) at the example: releasing the object of slot 0. *)
Lemma release_unknown_pointer_witness :
  release 4107 example_pool example_heap =
  Ok () {| first_ := [ {| addr := 4096; first := 0; used := 0;
                          units := [ {| next := 1; mem := None |};
                                     {| next := 2; mem := None |};
                                     {| next := 3; mem := None |};
                                     {| next := 4; mem := None |} ] |} ];
           total_block_ := 1 |} example_heap.
Proof.
  exact (proj1 (proj2 (proj2 (proj2
    (@release_unknown_pointer_iff_outside_open_range example_params top_heap
       example_BlockCap_fits example_ObjectSize_pos
       example_pool example_heap 4107))
    0%nat example_block 0 {| next := 1; mem := Some example_object |}
    eq_refl ltac:(intros; lia) (conj (Z.le_refl 0) example_BlockCap_pos)
    eq_refl eq_refl))).
Defined.

(** C3 at the example: the free list of the block of [example_pool]. *)
Lemma free_list_invariant_witness :
  exists l, free_units example_block = Some l /\ NoDup l /\
            Z.of_nat (length l) = 3.
Proof.
  destruct (@free_list_invariant example_params top_heap top_heap_laws
              example_BlockCap_pos example_BlockCap_fits example_ObjectSize_pos
              example_pool example_heap example_block
              example_pool_reachable (list_elem_of_here _ _))
    as (l & Hl & Hnd & Hlen & _).
  exists l. split; [exact Hl|]. split; [exact Hnd|exact Hlen].
Defined.

(** C4 at a pool of two empty blocks: [removeBlock(1)] removes the tail
    block and keeps the head. *)
Lemma removeBlock_removes_min_n_empty_witness :
  removeBlock (PP := example_params) (AL := top_heap) 1
    {| first_ := [fresh_block 4144; fresh_block 4096]; total_block_ := 2 |}
    ([(4144, 48); (4096, 48)] : @Heap top_heap) =
  Ok 1 {| first_ := [fresh_block 4144]; total_block_ := 1 |}
     ([(4144, 48)] : @Heap top_heap).
Proof.
  exact (proj1
    (@removeBlock_removes_min_n_empty example_params top_heap 1
       {| first_ := [fresh_block 4144; fresh_block 4096]; total_block_ := 2 |}
       ([(4144, 48); (4096, 48)] : @Heap top_heap)
       ltac:(reflexivity) eq_refl ltac:(reflexivity))).
Defined.

(** C6 at the example: two blocks, then three more, capacity 20. *)
Lemma capacity_is_blocks_times_BlockCap_witness :
  exists p h' p'' h'',
    ObjectPool_ctor (PP := example_params) 2 empty_heap = Ok () p h' /\
    addBlock 3 p h' = Ok () p'' h'' /\
    capacity p'' h'' = Ok 20 p'' h''.
Proof.
  eexists _, _, _, _. split; [reflexivity|]. split; [reflexivity|].
  exact (proj2 (proj2
    (proj2 (proj2 (proj2
       (@capacity_is_blocks_times_BlockCap example_params top_heap top_heap_laws
          example_BlockCap_pos example_BlockCap_fits example_ObjectSize_pos)))
       2 empty_heap _ _ 3 _ _ eq_refl eq_refl))).
Defined.

(** C7 at [full_pool]: the object at 4125, in the older of two full
    blocks, is released, and the next [get] walks past the full head block
    and returns 4125 again. *)
Lemma released_slot_is_reused_witness :
  exists p1 p2,
    release 4125 full_pool two_block_heap = Ok () p1 two_block_heap /\
    get other_object p1 two_block_heap = Ok 4125 p2 two_block_heap /\
    live_at p2 4125 1 2.
Proof.
  destruct (proj2 (@released_slot_is_reused example_params top_heap top_heap_laws
              example_BlockCap_pos example_BlockCap_fits example_ObjectSize_pos)
              full_pool two_block_heap 4125 1%nat 2 full_pool_ok
              full_pool_live_at)
    as (b1 & Hrel & _ & _ & _ & _ & _ & Hget).
  destruct (Hget other_object) as (b2 & Hg & Hlive & _).
  { intros [|j] bj Hj Hl; [injection Hl as <-; reflexivity|lia]. }
  eexists _, _. split; [exact Hrel|]. split; [exact Hg|exact Hlive].
Defined.

(** C8 at the example: [addBlock(2)] on the empty pool. *)
Lemma addBlock_prepends_fully_free_blocks_witness :
  exists p' h' news,
    addBlock (PP := example_params) 2
      {| first_ := []; total_block_ := 0 |} empty_heap = Ok () p' h' /\
    first_ p' = news ++ [] /\ Z.of_nat (length news) = 2 /\
    Forall (fun b => used b = 0 /\ first b = 0 /\
                     free_units b = Some [0; 1; 2; 3]) news.
Proof.
  destruct (@addBlock_prepends_fully_free_blocks example_params top_heap
              example_BlockCap_pos example_BlockCap_fits 2
              {| first_ := []; total_block_ := 0 |} empty_heap
              {| first_ := [fresh_block 4144; fresh_block 4096];
                 total_block_ := 2 |}
              ([(4144, 48); (4096, 48)] : @Heap top_heap) eq_refl)
    as (news & Hfirst & _ & Hlen & Hall).
  eexists _, _, news. split; [reflexivity|]. split; [exact Hfirst|].
  split; [exact Hlen|].
  eapply list.Forall_impl; [exact Hall|].
  intros b (Hu & Hf & Hfree & _). auto.
Defined.



(** * Further properties of the pool *)

Section Objects.
Context {PP : PoolParams} {AL : Allocator} {Laws : AllocatorLaws AL}.
Hypothesis BlockCap_pos : 0 < BlockCap.
Hypothesis BlockCap_fits : BlockCap < 2 ^ 63.
Hypothesis ObjectSize_pos : 0 < ObjectSize.

Lemma owns_addr ptr b b' : addr b' = addr b -> owns ptr b' = owns ptr b.
Proof. unfold owns, units_end, units_addr. intros ->. reflexivity. Qed.

(** Two slots of a well-formed pool with the same object address are the
    same slot. *)
Lemma slot_unique p h k k' b b' i i' :
  pool_ok p h -> first_ p !! k = Some b -> first_ p !! k' = Some b' ->
  0 <= i < BlockCap -> 0 <= i' < BlockCap ->
  mem_addr b i = mem_addr b' i' -> k = k' /\ i = i'.
Proof.
  intros Hok Hk Hk' Hi Hi' Heq.
  pose proof (mem_addr_owned ObjectSize_pos b i Hi) as Ho.
  pose proof (mem_addr_owned ObjectSize_pos b' i' Hi') as Ho'.
  assert (Hkk : k = k').
  { destruct (decide (k = k')) as [|Hne]; [assumption|].
    rewrite Heq in Ho.
    pose proof (owner_unique p h _ k' k b' b Hok Hk' Hk Ho' Hne) as Hno.
    congruence. }
  subst k'. split; [reflexivity|].
  assert (b' = b) as -> by congruence.
  pose proof (unit_size_pos ObjectSize_pos). unfold mem_addr in Heq. nia.
Qed.

Lemma object_at_live p ptr v : object_at p ptr v -> live_handle p ptr.
Proof.
  intros (k & i & b & u & Hk & Hi & Hu & Hv & ->).
  exists k, i, b. repeat split; try assumption; try lia. exists u, v. auto.
Qed.

(** [get]: the objects that were there stay where they are, and the
    address returned is none of theirs. *)
Lemma get_keeps_objects v p h ptr p' h' q w :
  pool_ok p h -> get v p h = Ok ptr p' h' -> object_at p q w ->
  object_at p' q w /\ q <> ptr /\ object_at p' ptr v.
Proof.
  intros Hok Hget (kq & iq & bq & uq & Hkq & Hiq & Huq & Hw & ->).
  pose proof (get_pool_ok BlockCap_pos BlockCap_fits ObjectSize_pos
                v p h ptr p' h' Hok Hget) as [Hok' _].
  destruct (find_space (first_ p)) as [k|] eqn:Hfind.
  - destruct (get_room BlockCap_pos BlockCap_fits v p h k (proj1 Hok) Hfind)
      as (b & b' & Hk & _ & _ & Hget' & Haddr & _ & _ & Hfree & Hr & Hslot & Hother).
    rewrite Hget' in Hget. injection Hget as <- <- <-.
    assert (Hklt : (k < length (first_ p))%nat) by (eapply lookup_lt_Some, Hk).
    assert (Hk' : <[k := b']> (first_ p) !! k = Some b')
      by (apply list_lookup_insert_eq, Hklt).
    assert (Hdiff : ~ (kq = k /\ iq = first b)).
    { intros [-> ->]. apply Hfree. assert (bq = b) as -> by congruence.
      exists uq, w. auto. }
    assert (Hq' : exists bq' uq', <[k := b']> (first_ p) !! kq = Some bq' /\
              units bq' !! Z.to_nat iq = Some uq' /\ mem uq' = Some w /\
              mem_addr bq iq = mem_addr bq' iq).
    { destruct (decide (kq = k)) as [->|Hne].
      - assert (bq = b) as -> by congruence.
        exists b', uq. split; [exact Hk'|]. split.
        + rewrite Hother; [exact Huq|]. intros Heq. apply Hdiff. split; [reflexivity|lia].
        + split; [exact Hw|]. symmetry. apply mem_addr_addr, Haddr.
      - exists bq, uq. rewrite list_lookup_insert_ne by congruence. auto. }
    destruct Hq' as (bq' & uq' & Hkq' & Huq' & Hw' & Hsame).
    split; [|split].
    + exists kq, iq, bq', uq'. simpl. auto.
    + intros Heq. apply Hdiff.
      rewrite Hsame, <- (mem_addr_addr b b' (first b) Haddr) in Heq.
      apply (slot_unique _ _ kq k bq' b' iq (first b) Hok' Hkq' Hk' Hiq Hr Heq).
    + exists k, (first b), b'. eexists. simpl.
      split; [exact Hk'|]. split; [exact Hr|]. split; [exact Hslot|].
      split; [reflexivity|]. symmetry. apply mem_addr_addr, Haddr.
  - destruct (heap_new sizeof_MemoryBlock h) as [[a h1]|] eqn:Hnew.
    + destruct (get_grow BlockCap_pos BlockCap_fits v p h a h1 Hfind Hnew)
        as (b' & Hget' & Haddr & _ & _ & _ & Hslot & _).
      rewrite Hget' in Hget. injection Hget as <- <- <-.
      assert (Hsame : mem_addr (fresh_block a) 0 = mem_addr b' 0)
        by (symmetry; apply mem_addr_addr; rewrite Haddr; reflexivity).
      split; [|split].
      * exists (S kq), iq, bq, uq. simpl. auto.
      * intros Heq. rewrite Hsame in Heq.
        destruct (slot_unique _ _ (S kq) 0%nat bq b' iq 0 Hok'
                    Hkq eq_refl Hiq ltac:(lia) Heq) as [Hk0 _].
        discriminate.
      * exists 0%nat, 0, b'. eexists. simpl. split; [reflexivity|].
        split; [lia|]. split; [exact Hslot|]. split; [reflexivity|exact Hsame].
    + rewrite (get_grow_fail BlockCap_pos v p h Hfind Hnew) in Hget. discriminate.
Qed.

(** [release] of a live handle: its object is gone, every other object
    stays where it is. *)
Lemma release_keeps_other_objects p h ptr p' h' :
  pool_ok p h -> live_handle p ptr -> release ptr p h = Ok () p' h' ->
  ~ live_handle p' ptr /\
  forall q w, q <> ptr -> object_at p q w -> object_at p' q w.
Proof.
  intros Hok (k & i & Hlive) Hrel.
  destruct (release_live BlockCap_pos BlockCap_fits ObjectSize_pos
              p h ptr k i Hok Hlive)
    as (b & b' & Hk & Hrel' & Haddr & _ & _ & Hunits & _ & Hok').
  rewrite Hrel' in Hrel. injection Hrel as <- <-.
  destruct Hlive as (b0 & Hk0 & Hi & Hocc & ->).
  assert (b0 = b) as -> by congruence.
  assert (Hklt : (k < length (first_ p))%nat) by (eapply lookup_lt_Some, Hk).
  assert (Hilt : (Z.to_nat i < length (units b))%nat).
  { destruct Hocc as (u & _ & Hu & _). eapply lookup_lt_Some, Hu. }
  assert (Hk' : <[k := b']> (first_ p) !! k = Some b')
    by (apply list_lookup_insert_eq, Hklt).
  split.
  - intros (k2 & i2 & b2 & Hk2 & Hi2 & (u2 & v2 & Hu2 & Hv2) & Heq).
    simpl in Hk2.
    rewrite <- (mem_addr_addr b b' i Haddr) in Heq.
    destruct (slot_unique _ _ k k2 b' b2 i i2 Hok' Hk' Hk2 Hi Hi2 Heq)
      as [<- <-].
    assert (b2 = b') as -> by congruence.
    rewrite Hunits, list_lookup_insert_eq in Hu2 by exact Hilt.
    injection Hu2 as <-. discriminate.
  - intros q w Hne (kq & iq & bq & uq & Hkq & Hiq & Huq & Hw & ->).
    destruct (decide (kq = k)) as [->|Hkne].
    + assert (bq = b) as -> by congruence.
      exists k, iq, b', uq. simpl. split; [exact Hk'|]. split; [exact Hiq|].
      split; [|split; [exact Hw|symmetry; apply mem_addr_addr, Haddr]].
      rewrite Hunits, list_lookup_insert_ne; [exact Huq|].
      intros Heq. apply Hne. replace iq with i by lia. reflexivity.
    + exists kq, iq, bq, uq. simpl.
      rewrite list_lookup_insert_ne by congruence. auto.
Qed.

(** *** [used] counts the live objects *)

Lemma filter_insert_length {A} (P : A -> Prop) `{!forall x, Decision (P x)}
    (l : list A) (i : nat) (x y : A) :
  l !! i = Some y ->
  (length (filter P (<[i := x]> l)) + (if decide (P y) then 1 else 0) =
   length (filter P l) + (if decide (P x) then 1 else 0))%nat.
Proof.
  revert i. induction l as [|a l IH]; intros i Hi; [discriminate|].
  destruct i as [|i]; simpl in *.
  - injection Hi as ->. rewrite !filter_cons.
    destruct (decide (P x)), (decide (P y)); simpl; lia.
  - specialize (IH i Hi). rewrite !filter_cons.
    destruct (decide (P a)); simpl; lia.
Qed.

Lemma filter_none {A} (P : A -> Prop) `{!forall x, Decision (P x)} (l : list A) :
  (forall x, x ∈ l -> ~ P x) -> filter P l = [].
Proof.
  induction l as [|a l IH]; intros Hno; [reflexivity|].
  rewrite filter_cons. destruct (decide (P a)) as [Ha|_].
  - destruct (Hno a ltac:(left) Ha).
  - apply IH. intros x Hx. apply Hno. right. exact Hx.
Qed.

Lemma insert_of_lookups {A} (l l' : list A) (i : nat) (x : A) :
  length l' = length l -> l' !! i = Some x ->
  (forall j, j <> i -> l' !! j = l !! j) -> l' = <[i := x]> l.
Proof.
  intros Hlen Hi Hother. apply list_eq. intros j.
  destruct (decide (j = i)) as [->|Hne].
  - rewrite Hi. symmetry. apply list_lookup_insert_eq.
    rewrite <- Hlen. eapply lookup_lt_Some, Hi.
  - rewrite list_lookup_insert_ne by congruence. apply Hother, Hne.
Qed.

Lemma live_count_insert b b' i x y :
  units b !! i = Some y -> units b' = <[i := x]> (units b) ->
  live_count b' + (if decide (is_Some (mem y)) then 1 else 0) =
  live_count b + (if decide (is_Some (mem x)) then 1 else 0).
Proof.
  intros Hy Hunits. unfold live_count. rewrite Hunits.
  pose proof (filter_insert_length (fun u => is_Some (mem u)) (units b) i x y Hy).
  destruct (decide (is_Some (mem x))), (decide (is_Some (mem y))); lia.
Qed.

Lemma fully_free_live_count b : fully_free b -> live_count b = 0.
Proof.
  intros (_ & _ & Hunits). unfold live_count. rewrite filter_none; [reflexivity|].
  intros u Hu. rewrite Hunits in Hu.
  apply list_elem_of_fmap in Hu as (i & -> & _). simpl.
  intros [? ?]. discriminate.
Qed.

Lemma occupied_live_count b i : occupied b i -> 0 < live_count b.
Proof.
  intros (u & v & Hu & Hv). unfold live_count.
  assert (Hin : u ∈ filter (fun u => is_Some (mem u)) (units b)).
  { apply list_elem_of_filter. split; [rewrite Hv; eexists; reflexivity|].
    eapply list_elem_of_lookup_2, Hu. }
  destruct (filter _ _); [inversion Hin|simpl; lia].
Qed.

(** Handing out a free slot of a block raises its count of live objects by
    one. *)
Lemma live_count_take b b' i v nx :
  length (units b') = length (units b) -> 0 <= i ->
  ~ occupied b i ->
  units b' !! Z.to_nat i = Some {| next := nx; mem := Some v |} ->
  (forall j, j <> Z.to_nat i -> units b' !! j = units b !! j) ->
  live_count b' = live_count b + 1.
Proof.
  intros Hlen Hi Hfree Hslot Hother.
  assert (Hlt : (Z.to_nat i < length (units b))%nat)
    by (rewrite <- Hlen; eapply lookup_lt_Some, Hslot).
  destruct (lookup_lt_is_Some_2 _ _ Hlt) as [y Hy].
  pose proof (insert_of_lookups _ _ _ _ Hlen Hslot Hother) as Hunits.
  pose proof (live_count_insert b b' _ _ y Hy Hunits) as Hcount.
  simpl in Hcount.
  destruct (decide (is_Some (mem y))) as [[v' Hv']|_].
  - destruct Hfree. exists y, v'. auto.
  - destruct (decide (is_Some (Some v))) as [_|Hn]; [lia|].
    destruct Hn. eexists. reflexivity.
Qed.

Lemma get_tight v p h ptr p' h' :
  pool_ok p h -> Forall (fun b => used b = live_count b) (first_ p) ->
  get v p h = Ok ptr p' h' ->
  Forall (fun b => used b = live_count b) (first_ p').
Proof.
  intros Hok Htight Hget.
  destruct (find_space (first_ p)) as [k|] eqn:Hfind.
  - destruct (get_room BlockCap_pos BlockCap_fits v p h k (proj1 Hok) Hfind)
      as (b & b' & Hk & _ & _ & Hget' & _ & Hused & Hb' & Hfree & Hr & Hslot & Hother).
    rewrite Hget' in Hget. injection Hget as _ <- _. simpl.
    apply Forall_insert; [exact Htight|].
    pose proof (proj1 Hok) as Hblocks. rewrite list.Forall_forall in Hblocks, Htight.
    pose proof (list_elem_of_lookup_2 _ _ _ Hk) as Hin.
    destruct (Hblocks b Hin) as (Hlen & _). destruct Hb' as (Hlen' & _).
    rewrite (live_count_take b b' (first b) v (first b')); try assumption;
      try lia; try congruence.
    rewrite Hused, (Htight b Hin). reflexivity.
  - destruct (heap_new sizeof_MemoryBlock h) as [[a h1]|] eqn:Hnew.
    + destruct (get_grow BlockCap_pos BlockCap_fits v p h a h1 Hfind Hnew)
        as (b' & Hget' & _ & Hused & _ & Hb' & Hslot & Hother).
      rewrite Hget' in Hget. injection Hget as _ <- _. simpl.
      constructor; [|exact Htight].
      pose proof (fresh_block_fully_free BlockCap_fits a) as Hfresh.
      assert (Hlen : length (units (fresh_block a)) = Z.to_nat BlockCap)
        by (apply fully_free_ok; [lia|exact Hfresh]).
      destruct Hb' as (Hlen' & _).
      rewrite (live_count_take (fresh_block a) b' 0 v 1); try assumption;
        try lia; try congruence.
      * rewrite (fully_free_live_count _ Hfresh). lia.
      * intros (u & v' & Hu & Hv').
        rewrite (fully_free_lookup _ 0 Hfresh) in Hu by lia.
        injection Hu as <-. discriminate.
    + rewrite (get_grow_fail BlockCap_pos v p h Hfind Hnew) in Hget. discriminate.
Qed.

Lemma release_tight ptr p h p' h' :
  pool_ok p h -> Forall (fun b => used b = live_count b) (first_ p) ->
  live_handle p ptr -> release ptr p h = Ok () p' h' ->
  Forall (fun b => used b = live_count b) (first_ p').
Proof.
  intros Hok Htight (k & i & Hlive) Hrel.
  destruct (release_live BlockCap_pos BlockCap_fits ObjectSize_pos
              p h ptr k i Hok Hlive)
    as (b & b' & Hk & Hrel' & _ & Hused & _ & Hunits & _ & _).
  rewrite Hrel' in Hrel. injection Hrel as <- _. simpl.
  apply Forall_insert; [exact Htight|].
  destruct Hlive as (b0 & Hk0 & _ & (u & v & Hu & Hv) & _).
  assert (b0 = b) as -> by congruence.
  pose proof (live_count_insert b b' _ _ u Hu Hunits) as Hcount.
  simpl in Hcount. rewrite Hv in Hcount.
  rewrite list.Forall_forall in Htight.
  rewrite Hused, (Htight b (list_elem_of_lookup_2 _ _ _ Hk)).
  destruct (decide (is_Some (Some v))) as [_|Hn];
    [|destruct Hn; eexists; reflexivity].
  destruct (decide (is_Some (@None T))) as [[? ?]|_]; [discriminate|lia].
Qed.

(** What [removeBlock] returns on a well-formed pool. *)
Lemma removeBlock_Ok_kept n r p h p' h' :
  pool_ok p h -> removeBlock n p h = Ok r p' h' ->
  0 < n /\ r = Z.min n (count_empty (first_ p)) /\
  first_ p' = kept_blocks n (first_ p).
Proof.
  intros Hok Hrem.
  destruct (Z.ltb_spec 0 n) as [Hn|Hn].
  2:{ unfold removeBlock in Hrem. destruct (Z.ltb_spec 0 n); [lia|discriminate]. }
  pose proof (pool_ok_total BlockCap_pos ObjectSize_pos p h Hok) as [Htot _].
  destruct Hok as (_ & Htotal & _).
  rewrite (removeBlock_spec n p h Hn Htotal ltac:(lia)) in Hrem.
  injection Hrem as <- <- _. auto.
Qed.

(** The three operations on the number of blocks either leave the list as
    it is, put new fully free blocks in front of it, or drop blocks of it
    that are empty. *)
Lemma resize_cases n r p h p' h' :
  resize n p h = Ok r p' h' ->
  (p' = p /\ h' = h) \/
  (exists m, addBlock m p h = Ok () p' h') \/
  (exists m r', removeBlock m p h = Ok r' p' h').
Proof.
  unfold resize. destruct (n =? total_block_ p).
  { intros [= _ <- <-]. left. auto. }
  destruct (total_block_ p <? n).
  - destruct (addBlock _ p h) as [[] p1 h1| |] eqn:Hadd; simpl; try discriminate.
    intros [= _ <- <-]. right. left. eexists. exact Hadd.
  - destruct (removeBlock _ p h) as [r1 p1 h1| |] eqn:Hrem; simpl; try discriminate.
    intros [= _ <- <-]. right. right. eexists _, _. exact Hrem.
Qed.

Lemma reachable_tight p h :
  reachable p h -> Forall (fun b => used b = live_count b) (first_ p).
Proof.
  assert (Hadd : forall n p h p' h',
            Forall (fun b => used b = live_count b) (first_ p) ->
            addBlock n p h = Ok () p' h' ->
            Forall (fun b => used b = live_count b) (first_ p')).
  { intros n p0 h0 p' h' Ht Hadd.
    destruct (addBlock_Ok BlockCap_fits _ _ _ _ _ Hadd)
      as (_ & _ & news & -> & _ & Hfree).
    apply list.Forall_app. split; [|exact Ht].
    eapply list.Forall_impl; [exact Hfree|]. intros b Hb.
    rewrite (fully_free_live_count b Hb). apply Hb. }
  assert (Hrem : forall n r p h p' h', pool_ok p h ->
            Forall (fun b => used b = live_count b) (first_ p) ->
            removeBlock n p h = Ok r p' h' ->
            Forall (fun b => used b = live_count b) (first_ p')).
  { intros n r p0 h0 p' h' Hok Ht Hrem.
    destruct (removeBlock_Ok_kept _ _ _ _ _ _ Hok Hrem) as (_ & _ & ->).
    rewrite list.Forall_forall in Ht |- *. intros b Hb. apply Ht.
    eapply elem_of_sublist; [exact Hb|apply kept_blocks_sublist]. }
  induction 1 as [n h p h' Hctor
                 |n p h p' h' Hreach IH Hadd'
                 |n r p h p' h' Hreach IH Hrem'
                 |n r p h p' h' Hreach IH Hres
                 |v ptr p h p' h' Hreach IH Hget
                 |ptr p h p' h' Hreach IH Hlive Hrel].
  - eapply Hadd; [|exact Hctor]. constructor.
  - eapply Hadd; eassumption.
  - eapply Hrem; [|exact IH|exact Hrem'].
    eapply (reachable_pool_ok BlockCap_pos BlockCap_fits ObjectSize_pos), Hreach.
  - pose proof (reachable_pool_ok BlockCap_pos BlockCap_fits ObjectSize_pos
                  _ _ Hreach) as Hok.
    destruct (resize_cases _ _ _ _ _ _ Hres)
      as [[-> _]|[(m & Hadd')|(m & r' & Hrem')]].
    + exact IH.
    + eapply Hadd; eassumption.
    + eapply Hrem; eassumption.
  - eapply get_tight; [|exact IH|exact Hget].
    eapply (reachable_pool_ok BlockCap_pos BlockCap_fits ObjectSize_pos), Hreach.
  - eapply release_tight; [|exact IH|exact Hlive|exact Hrel].
    eapply (reachable_pool_ok BlockCap_pos BlockCap_fits ObjectSize_pos), Hreach.
Qed.

(** *** Double release *)

(** A self-linked slot never leads to the sentinel. *)
Lemma self_linked_no_free_list b i fuel :
  self_linked b i -> free_list fuel (units b) i = None.
Proof.
  intros (_ & Hi & m & Hu). induction fuel as [|fuel IH]; simpl.
  - destruct (Z.eqb_spec i BlockCap); [lia|reflexivity].
  - destruct (Z.eqb_spec i BlockCap); [lia|].
    replace (index_ok i) with true by (symmetry; apply index_ok_range; exact Hi).
    rewrite Hu. simpl. rewrite IH. reflexivity.
Qed.

(** [get] served by a self-linked block returns the address of the linked
    slot and leaves the block self-linked. *)
Lemma get_self_linked v p h k b i :
  first_ p !! k = Some b -> self_linked b i ->
  find_space (first_ p) = Some k ->
  exists b',
    get v p h =
      Ok (mem_addr b i)
         {| first_ := <[k := b']> (first_ p); total_block_ := total_block_ p |} h /\
    addr b' = addr b /\ self_linked b' i /\
    units b' !! Z.to_nat i = Some {| next := i; mem := Some v |}.
Proof.
  intros Hk (Hfirst & Hi & m & Hu) Hfind.
  assert (Hlt : (Z.to_nat i < length (units b))%nat) by (eapply lookup_lt_Some, Hu).
  eexists. split; [|split; [|split]].
  - rewrite (get_unfold BlockCap_pos), Hfind.
    destruct (first_ p) as [|b0 l] eqn:Hl; [discriminate|].
    rewrite <- Hl in Hk |- *.
    unfold get_from. rewrite Hk. unfold take_unit. rewrite Hfirst.
    replace (index_ok i) with true by (symmetry; apply index_ok_range; exact Hi).
    rewrite Hu. cbn [mbind option_bind next]. reflexivity.
  - reflexivity.
  - split; [reflexivity|]. split; [exact Hi|]. exists (Some v). simpl.
    apply list_lookup_insert_eq, Hlt.
  - simpl. apply list_lookup_insert_eq, Hlt.
Qed.

(** Releasing a live handle twice: both calls return normally, and the
    second leaves the slot linked to itself. *)
Lemma release_twice p h ptr k i :
  pool_ok p h -> live_at p ptr k i ->
  exists b b1 b2,
    first_ p !! k = Some b /\
    release ptr p h =
      Ok () {| first_ := <[k := b1]> (first_ p);
               total_block_ := total_block_ p |} h /\
    release ptr {| first_ := <[k := b1]> (first_ p);
                   total_block_ := total_block_ p |} h =
      Ok () {| first_ := <[k := b2]> (first_ p);
               total_block_ := total_block_ p |} h /\
    addr b2 = addr b /\ used b2 = used b - 2 /\ self_linked b2 i /\
    units b2 !! Z.to_nat i = Some {| next := i; mem := None |}.
Proof.
  intros Hok Hlive.
  destruct (release_live BlockCap_pos BlockCap_fits ObjectSize_pos
              p h ptr k i Hok Hlive)
    as (b & b1 & Hk & Hrel & Haddr & Hused & Hfirst & Hunits & Hb1 & Hok1).
  destruct Hlive as (b0 & Hk0 & Hi & Hocc & Hptr).
  assert (b0 = b) as -> by congruence.
  assert (Hklt : (k < length (first_ p))%nat) by (eapply lookup_lt_Some, Hk).
  assert (Hilt : (Z.to_nat i < length (units b))%nat).
  { destruct Hocc as (u & _ & Hu & _). eapply lookup_lt_Some, Hu. }
  set (p1 := {| first_ := <[k := b1]> (first_ p);
                total_block_ := total_block_ p |}) in *.
  assert (Hk1 : first_ p1 !! k = Some b1) by (apply list_lookup_insert_eq, Hklt).
  assert (Hptr1 : ptr = mem_addr b1 i).
  { rewrite Hptr. symmetry. apply mem_addr_addr, Haddr. }
  assert (Hu1 : units b1 !! Z.to_nat i = Some {| next := first b; mem := None |}).
  { rewrite Hunits. apply list_lookup_insert_eq, Hilt. }
  pose proof (mem_addr_owned ObjectSize_pos b1 i Hi) as Howns.
  assert (Hfind : find_owner ptr (first_ p1) = Some k).
  { rewrite Hptr1. apply (find_owner_first _ _ _ b1 Hk1 Howns).
    intros j bj Hj Hlook.
    apply (owner_unique p1 h _ k j b1 bj Hok1 Hk1 Hlook Howns). lia. }
  pose proof (put_unit_slot BlockCap_fits ObjectSize_pos b1 i _ Hi Hu1) as Hput.
  rewrite <- Hptr1 in Hput.
  assert (Hpos : 0 <= used b1) by (destruct Hb1 as (_ & ? & _); lia).
  assert (Hle : used b1 <= BlockCap) by (destruct Hb1 as (_ & ? & _); lia).
  exists b, b1. eexists. split; [exact Hk|]. split; [exact Hrel|]. split.
  { fold p1. unfold release. rewrite Hfind, Hk1, Hput.
    unfold p1. cbn [first_ total_block_].
    rewrite list_insert_insert_eq. reflexivity. }
  cbn [addr used first units].
  split; [exact Haddr|]. split.
  { rewrite (to_idx_small BlockCap_fits) by lia. lia. }
  assert (Hlt1 : (Z.to_nat i < length (units b1))%nat) by (eapply lookup_lt_Some, Hu1).
  split.
  - split; [reflexivity|]. split; [exact Hi|]. exists None. cbn [units].
    rewrite Hfirst. apply list_lookup_insert_eq, Hlt1.
  - rewrite Hfirst. apply list_lookup_insert_eq, Hlt1.
Qed.

(** *** Operations on the number of blocks and live objects *)

Lemma addBlock_keeps_objects n p h p' h' q w :
  addBlock n p h = Ok () p' h' -> object_at p q w -> object_at p' q w.
Proof.
  intros Hadd (k & i & b & u & Hk & Hrest).
  destruct (addBlock_Ok BlockCap_fits _ _ _ _ _ Hadd)
    as (_ & _ & news & Hfirst & _ & _).
  exists (length news + k)%nat, i, b, u. split; [|exact Hrest].
  rewrite Hfirst, lookup_app_r by lia.
  replace (length news + k - length news)%nat with k by lia. exact Hk.
Qed.

Lemma removeBlock_keeps_objects n r p h p' h' q w :
  pool_ok p h -> Forall (fun b => used b = live_count b) (first_ p) ->
  removeBlock n p h = Ok r p' h' -> object_at p q w -> object_at p' q w.
Proof.
  intros Hok Htight Hrem (k & i & b & u & Hk & Hi & Hu & Hv & Hq).
  destruct (removeBlock_Ok_kept _ _ _ _ _ _ Hok Hrem) as (_ & _ & Hkept).
  pose proof (list_elem_of_lookup_2 _ _ _ Hk) as Hin.
  assert (Hused : used b <> 0).
  { rewrite list.Forall_forall in Htight. rewrite (Htight b Hin).
    pose proof (occupied_live_count b i ltac:(exists u, w; auto)). lia. }
  pose proof (removed_blocks_all_empty n (first_ p)) as Hempty.
  rewrite list.Forall_forall in Hempty.
  rewrite (kept_removed_perm n (first_ p)) in Hin.
  apply elem_of_app in Hin as [Hin|Hin]; [|destruct (Hused (Hempty b Hin))].
  rewrite <- Hkept in Hin. apply list_elem_of_lookup_1 in Hin as [k' Hk'].
  exists k', i, b, u. auto.
Qed.

(** *** The destructor *)

Lemma dtor_loop_deletes_all blocks h :
  dtor_loop blocks h = ([], delete_all blocks h).
Proof.
  revert h. induction blocks as [|b l IH]; intros h; [reflexivity|].
  simpl. rewrite IH. reflexivity.
Qed.

Lemma delete_all_live l h e :
  e ∈ heap_live (delete_all l h) <->
  e ∈ heap_live h /\ forall b, b ∈ l -> addr b <> e.1.
Proof.
  revert h. induction l as [|b0 l IH]; intros h.
  - simpl. split; [intros He; split; [exact He|]|tauto].
    intros b Hb. inversion Hb.
  - change (delete_all (b0 :: l) h) with (delete_all l (heap_delete (addr b0) h)).
    rewrite IH, heap_delete_live. split.
    + intros [[He Hne] Hrest]. split; [exact He|].
      intros b Hb. apply elem_of_cons in Hb as [->|Hb]; [congruence|auto].
    + intros [He Hall]. split; [split; [exact He|]|].
      * intros Heq. apply (Hall b0); [left|congruence].
      * intros b Hb. apply Hall. right. exact Hb.
Qed.

(** *** [addBlock] when the free store runs out *)

Lemma addBlock_loop_inr i blocks h blocks' h' :
  addBlock_loop i blocks h = inr (blocks', h') ->
  exists news, blocks' = news ++ blocks /\ (length news < i)%nat /\
               Forall fully_free news /\
               heap_new sizeof_MemoryBlock h' = None.
Proof.
  revert blocks h. induction i as [|i IH]; intros blocks h; simpl; [discriminate|].
  destruct (heap_new sizeof_MemoryBlock h) as [[a h1]|] eqn:Hnew.
  - intros Hloop. apply IH in Hloop as (news & -> & Hlen & Hfree & Hnone).
    exists (news ++ [fresh_block a]). rewrite <- app_assoc. simpl.
    split; [reflexivity|]. split; [rewrite length_app; simpl; lia|].
    split; [|exact Hnone]. apply list.Forall_app. split; [exact Hfree|].
    constructor; [apply (fresh_block_fully_free BlockCap_fits)|constructor].
  - intros [= <- <-]. exists []. simpl. split; [reflexivity|].
    split; [lia|]. split; [constructor|exact Hnew].
Qed.

(** *** Empty blocks after [removeBlock] *)

Lemma count_empty_app l l' : count_empty (l ++ l') = count_empty l + count_empty l'.
Proof. unfold count_empty. rewrite list.filter_app, length_app. lia. Qed.

Lemma count_empty_perm l l' : l ≡ₚ l' -> count_empty l = count_empty l'.
Proof. intros Hperm. unfold count_empty. rewrite Hperm. reflexivity. Qed.

Lemma count_empty_zero l :
  count_empty l = 0 -> Forall (fun b => used b <> 0) l.
Proof.
  induction l as [|b l IH]; [constructor|].
  rewrite count_empty_cons. pose proof (count_empty_nonneg l).
  destruct (Z.eqb_spec (used b) 0); [lia|].
  intros Hc. constructor; [assumption|apply IH; lia].
Qed.

Lemma kept_count_empty n l :
  0 < n ->
  count_empty (kept_blocks n l) = count_empty l - Z.min n (count_empty l).
Proof.
  intros Hn.
  pose proof (count_empty_perm _ _ (kept_removed_perm n l)) as Hperm.
  rewrite count_empty_app in Hperm.
  rewrite (count_empty_all_empty _ (removed_blocks_all_empty n l)) in Hperm.
  rewrite (removed_blocks_length n l Hn) in Hperm. lia.
Qed.

End Objects.

Section Coverage.
Context {PP : PoolParams} {AL : Allocator} {Laws : AllocatorLaws AL}.
Hypothesis BlockCap_pos : 0 < BlockCap.
Hypothesis BlockCap_fits : BlockCap < 2 ^ 63.
Hypothesis ObjectSize_pos : 0 < ObjectSize.

(** X1. In every reachable pool [total_block_] is the number of blocks in
    the list, the blocks fit the address space together, no two of them
    overlap, and each of them is a live allocation of the free store with
    [BlockCap] slots and [0 <= used <= BlockCap]. *)
Theorem reachable_pool_counts_its_blocks p h :
  reachable p h ->
  total_block_ p = Z.of_nat (length (first_ p)) /\
  total_block_ p * sizeof_MemoryBlock <= 2 ^ 64 /\
  (forall j k bj bk,
     j <> k -> first_ p !! j = Some bj -> first_ p !! k = Some bk ->
     addr bj + sizeof_MemoryBlock <= addr bk \/
     addr bk + sizeof_MemoryBlock <= addr bj) /\
  (forall b, b ∈ first_ p ->
     (addr b, sizeof_MemoryBlock) ∈ heap_live h /\
     length (units b) = Z.to_nat BlockCap /\ 0 <= used b <= BlockCap).
Proof.
  intros Hreach.
  pose proof (reachable_pool_ok BlockCap_pos BlockCap_fits ObjectSize_pos
                p h Hreach) as Hok.
  pose proof (pool_ok_count BlockCap_pos ObjectSize_pos p h Hok) as Hcount.
  destruct Hok as (Hblocks & Htotal & Hsep & Hlive).
  split; [exact Htotal|]. split; [rewrite Htotal; exact Hcount|]. split.
  - intros j k bj bk Hne Hj Hk.
    apply (separated_lookup (addr <$> first_ p) j k); try assumption.
    + rewrite list_lookup_fmap, Hj. reflexivity.
    + rewrite list_lookup_fmap, Hk. reflexivity.
  - intros b Hb. rewrite list.Forall_forall in Hblocks, Hlive.
    destruct (Hblocks b Hb) as (Hlen & Hused & _).
    destruct (Hlive b Hb) as (_ & _ & Hin). auto.
Qed.

(** X2. In every reachable pool the [used] field of a block is the number
    of its slots that hold a live object. *)
Theorem used_counts_live_objects p h b :
  reachable p h -> b ∈ first_ p -> used b = live_count b.
Proof.
  intros Hreach Hb.
  pose proof (reachable_tight BlockCap_pos BlockCap_fits ObjectSize_pos
                p h Hreach) as Htight.
  rewrite list.Forall_forall in Htight. apply Htight, Hb.
Qed.

(** X3. [addBlock], [removeBlock] and [resize] on a reachable pool never
    lose a live object: an object that lived at an address before the call
    lives at the same address after it.  In particular [removeBlock] never
    removes a block that holds an object. *)
Theorem block_count_operations_keep_objects p h p' h' q w :
  reachable p h -> object_at p q w ->
  (exists n, addBlock n p h = Ok () p' h') \/
  (exists n r, removeBlock n p h = Ok r p' h') \/
  (exists n r, resize n p h = Ok r p' h') ->
  object_at p' q w.
Proof.
  intros Hreach Hobj Hop.
  pose proof (reachable_pool_ok BlockCap_pos BlockCap_fits ObjectSize_pos
                p h Hreach) as Hok.
  pose proof (reachable_tight BlockCap_pos BlockCap_fits ObjectSize_pos
                p h Hreach) as Htight.
  assert (Hadd : forall n, addBlock n p h = Ok () p' h' -> object_at p' q w).
  { intros n Hadd. eapply (addBlock_keeps_objects BlockCap_fits); eassumption. }
  assert (Hrem : forall n r, removeBlock n p h = Ok r p' h' -> object_at p' q w).
  { intros n r Hrem.
    eapply (removeBlock_keeps_objects BlockCap_pos ObjectSize_pos); eassumption. }
  destruct Hop as [(n & Hop)|[(n & r & Hop)|(n & r & Hop)]].
  - eapply Hadd, Hop.
  - eapply Hrem, Hop.
  - destruct (resize_cases _ _ _ _ _ _ Hop)
      as [[-> _]|[(m & Hadd')|(m & r' & Hrem')]].
    + exact Hobj.
    + eapply Hadd, Hadd'.
    + eapply Hrem, Hrem'.
Qed.

(** X4. [removeBlock(n)] removes as many blocks as it can: afterwards the
    pool holds [r] empty blocks fewer, where [r] is the number returned, and
    when [r < n] no empty block is left at all. *)
Theorem removeBlock_removes_as_many_as_possible n r p h p' h' :
  0 < n ->
  total_block_ p = Z.of_nat (length (first_ p)) -> total_block_ p < 2 ^ 64 ->
  removeBlock n p h = Ok r p' h' ->
  0 <= r <= n /\
  count_empty (first_ p') = count_empty (first_ p) - r /\
  (r < n -> Forall (fun b => used b <> 0) (first_ p')).
Proof.
  intros Hn Htotal Hlt Hrem.
  rewrite (removeBlock_spec n p h Hn Htotal Hlt) in Hrem.
  injection Hrem as <- <- _. cbn [first_].
  pose proof (count_empty_nonneg (first_ p)) as Hc.
  pose proof (kept_count_empty n (first_ p) Hn) as Hkept.
  split; [lia|]. split; [exact Hkept|].
  intros Hshort. apply count_empty_zero. lia.
Qed.

(** X5. [resize(n)] on a pool whose counter equals the number of its
    blocks.  With [n] equal to the count nothing changes.  With [n] larger,
    [resize] is [addBlock(n - count)]: it returns [n] with [n] blocks, or
    fails as [addBlock] does.  With [n] smaller it never fails: it removes
    [min(count - n, empty blocks)] blocks and returns the resulting count,
    which is [n] only if enough blocks were empty. *)
Theorem resize_reaches_target_or_keeps_used_blocks n p h :
  0 <= n < 2 ^ 64 ->
  total_block_ p = Z.of_nat (length (first_ p)) -> total_block_ p < 2 ^ 64 ->
  (n = total_block_ p -> resize n p h = Ok n p h) /\
  (total_block_ p < n ->
   resize n p h =
     bind (addBlock (n - total_block_ p) p h)
          (fun _ p' h' => Ok (total_block_ p') p' h') /\
   forall r p' h', resize n p h = Ok r p' h' ->
     r = n /\ total_block_ p' = n /\ Z.of_nat (length (first_ p')) = n) /\
  (n < total_block_ p ->
   let d := total_block_ p - n in
   let r := Z.min d (count_empty (first_ p)) in
   resize n p h =
     Ok (total_block_ p - r)
        {| first_ := kept_blocks d (first_ p);
           total_block_ := total_block_ p - r |}
        (delete_all (removed_blocks d (first_ p)) h) /\
   n <= total_block_ p - r /\
   (total_block_ p - r = n <-> d <= count_empty (first_ p))).
Proof.
  intros Hn Htotal Hlt.
  split; [|split].
  - intros ->. unfold resize. rewrite Z.eqb_refl. reflexivity.
  - intros Hgrow.
    assert (Hres : resize n p h =
              bind (addBlock (n - total_block_ p) p h)
                   (fun _ p' h' => Ok (total_block_ p') p' h')).
    { unfold resize.
      destruct (Z.eqb_spec n (total_block_ p)); [lia|].
      destruct (Z.ltb_spec (total_block_ p) n); [|lia].
      rewrite to_size_small by lia. reflexivity. }
    split; [exact Hres|].
    intros r p' h'. rewrite Hres.
    destruct (addBlock _ p h) as [[] p1 h1| |] eqn:Hadd; simpl; try discriminate.
    intros [= <- <- <-].
    destruct (addBlock_Ok BlockCap_fits _ _ _ _ _ Hadd)
      as (_ & Htot' & news & Hfirst & Hlen & _).
    assert (Htn : total_block_ p1 = n).
    { rewrite Htot'. replace (total_block_ p + (n - total_block_ p)) with n by lia.
      apply to_size_small. lia. }
    split; [exact Htn|]. split; [exact Htn|].
    rewrite Hfirst, length_app, Hlen. lia.
  - intros Hshrink. cbv zeta.
    pose proof (count_empty_nonneg (first_ p)) as Hc.
    split; [|split; [lia|lia]].
    unfold resize.
    destruct (Z.eqb_spec n (total_block_ p)); [lia|].
    destruct (Z.ltb_spec (total_block_ p) n); [lia|].
    rewrite to_size_small by lia.
    rewrite (removeBlock_spec (total_block_ p - n) p h ltac:(lia) Htotal Hlt).
    reflexivity.
Qed.

(** X6. [get] on a well-formed pool never hands out a slot that is in use:
    the address it returns differs from the address of every object that
    lives in the pool, every such object still lives at its address
    afterwards, and the new object lives at the returned address. *)
Theorem get_returns_unused_address v p h ptr p' h' :
  pool_ok p h -> get v p h = Ok ptr p' h' ->
  object_at p' ptr v /\
  forall q w, object_at p q w -> q <> ptr /\ object_at p' q w.
Proof.
  intros Hok Hget.
  destruct (get_pool_ok BlockCap_pos BlockCap_fits ObjectSize_pos
              v p h ptr p' h' Hok Hget) as [Hok' (k & i & b & Hk & Hi & Hocc & Hptr)].
  split.
  - destruct (find_space (first_ p)) as [kf|] eqn:Hfind.
    + destruct (get_room BlockCap_pos BlockCap_fits v p h kf (proj1 Hok) Hfind)
        as (b0 & b' & Hk0 & _ & _ & Hget' & Haddr & _ & _ & _ & Hr & Hslot & _).
      rewrite Hget' in Hget. injection Hget as <- <- <-.
      exists kf, (first b0), b'. eexists. simpl.
      split; [apply list_lookup_insert_eq; eapply lookup_lt_Some, Hk0|].
      split; [exact Hr|]. split; [exact Hslot|]. split; [reflexivity|].
      symmetry. apply mem_addr_addr, Haddr.
    + destruct (heap_new sizeof_MemoryBlock h) as [[a h1]|] eqn:Hnew.
      * destruct (get_grow BlockCap_pos BlockCap_fits v p h a h1 Hfind Hnew)
          as (b' & Hget' & Haddr & _ & _ & _ & Hslot & _).
        rewrite Hget' in Hget. injection Hget as <- <- <-.
        exists 0%nat, 0, b'. eexists. simpl. split; [reflexivity|].
        split; [lia|]. split; [exact Hslot|]. split; [reflexivity|].
        symmetry. apply mem_addr_addr. rewrite Haddr. reflexivity.
      * rewrite (get_grow_fail BlockCap_pos v p h Hfind Hnew) in Hget.
        discriminate.
  - intros q w Hobj.
    destruct (get_keeps_objects BlockCap_pos BlockCap_fits ObjectSize_pos
                v p h ptr p' h' q w Hok Hget Hobj) as (Hq & Hne & _).
    auto.
Qed.

(** X7. [release] of a live handle ends the life of that object only: the
    handle is no longer live afterwards, and every other object still lives
    at its address. *)
Theorem release_ends_only_its_object p h ptr p' h' :
  pool_ok p h -> live_handle p ptr -> release ptr p h = Ok () p' h' ->
  pool_ok p' h' /\ ~ live_handle p' ptr /\
  forall q w, q <> ptr -> object_at p q w -> object_at p' q w.
Proof.
  intros Hok Hlive Hrel.
  pose proof (release_keeps_other_objects BlockCap_pos BlockCap_fits
                ObjectSize_pos p h ptr p' h' Hok Hlive Hrel) as [Hdead Hkeep].
  split; [|split; assumption].
  destruct Hlive as (k & i & Hlive).
  destruct (release_live BlockCap_pos BlockCap_fits ObjectSize_pos
              p h ptr k i Hok Hlive) as (b & b' & _ & Hrel' & _ & _ & _ & _ & _ & Hok').
  rewrite Hrel' in Hrel. injection Hrel as <- <-. exact Hok'.
Qed.

(** X8. A double release is not detected.  Releasing a live handle twice
    in a row returns normally both times; afterwards the slot is linked to
    itself, so the walk along the free list of its block never reaches the
    sentinel, [used] has dropped by 2, and the pool is no longer well
    formed. *)
Theorem double_release_corrupts_free_list p h ptr k i p1 p2 :
  pool_ok p h -> live_at p ptr k i ->
  release ptr p h = Ok () p1 h -> release ptr p1 h = Ok () p2 h ->
  ~ pool_ok p2 h /\
  exists b b2,
    first_ p !! k = Some b /\ first_ p2 !! k = Some b2 /\
    used b2 = used b - 2 /\ first b2 = i /\
    units b2 !! Z.to_nat i = Some {| next := i; mem := None |} /\
    free_units b2 = None.
Proof.
  intros Hok Hlive Hrel1 Hrel2.
  destruct (release_twice BlockCap_pos BlockCap_fits ObjectSize_pos
              p h ptr k i Hok Hlive)
    as (b & b1 & b2 & Hk & Hr1 & Hr2 & _ & Hused & Hself & Hslot).
  rewrite Hr1 in Hrel1. injection Hrel1 as <-.
  rewrite Hr2 in Hrel2. injection Hrel2 as <-.
  assert (Hk2 : <[k := b2]> (first_ p) !! k = Some b2)
    by (apply list_lookup_insert_eq; eapply lookup_lt_Some, Hk).
  assert (Hnone : free_units b2 = None).
  { unfold free_units. rewrite (proj1 Hself).
    apply self_linked_no_free_list, Hself. }
  split.
  - intros (Hblocks & _). simpl in Hblocks.
    rewrite list.Forall_forall in Hblocks.
    destruct (Hblocks b2 (list_elem_of_lookup_2 _ _ _ Hk2))
      as (_ & _ & l & Hl & _).
    congruence.
  - exists b, b2. simpl. split; [exact Hk|]. split; [exact Hk2|].
    split; [exact Hused|]. split; [apply Hself|]. split; assumption.
Qed.

(** X9. After a double release the same slot is handed out again and
    again: two consecutive calls of [get] that are served by that block
    return the same address, the released one, and the second object
    overwrites the first. *)
Theorem double_release_makes_get_repeat_address p h ptr k i p1 p2 v w :
  pool_ok p h -> live_at p ptr k i ->
  release ptr p h = Ok () p1 h -> release ptr p1 h = Ok () p2 h ->
  find_space (first_ p2) = Some k ->
  exists p3,
    get v p2 h = Ok ptr p3 h /\ object_at p3 ptr v /\
    (find_space (first_ p3) = Some k ->
     exists p4, get w p3 h = Ok ptr p4 h /\ object_at p4 ptr w).
Proof.
  intros Hok Hlive Hrel1 Hrel2 Hfind.
  destruct (release_twice BlockCap_pos BlockCap_fits ObjectSize_pos
              p h ptr k i Hok Hlive)
    as (b & b1 & b2 & Hk & Hr1 & Hr2 & Haddr2 & _ & Hself & _).
  rewrite Hr1 in Hrel1. injection Hrel1 as <-.
  rewrite Hr2 in Hrel2. injection Hrel2 as <-.
  destruct Hlive as (b0 & Hk0 & Hi & _ & Hptr).
  assert (b0 = b) as -> by congruence.
  assert (Hklt : (k < length (first_ p))%nat) by (eapply lookup_lt_Some, Hk).
  set (p2 := {| first_ := <[k := b2]> (first_ p);
                total_block_ := total_block_ p |}) in *.
  assert (Hk2 : first_ p2 !! k = Some b2) by (apply list_lookup_insert_eq, Hklt).
  destruct (get_self_linked BlockCap_pos v p2 h k b2 i Hk2 Hself Hfind)
    as (b3 & Hget3 & Haddr3 & Hself3 & Hslot3).
  assert (Hptr2 : mem_addr b2 i = ptr)
    by (rewrite Hptr; apply mem_addr_addr, Haddr2).
  rewrite Hptr2 in Hget3.
  eexists. split; [exact Hget3|].
  assert (Hk3 : <[k := b3]> (first_ p2) !! k = Some b3).
  { apply list_lookup_insert_eq. eapply lookup_lt_Some, Hk2. }
  assert (Hptr3 : mem_addr b3 i = ptr)
    by (rewrite <- Hptr2; apply mem_addr_addr, Haddr3).
  split.
  - exists k, i, b3. eexists. simpl.
    split; [exact Hk3|]. split; [exact Hi|]. split; [exact Hslot3|].
    split; [reflexivity|]. symmetry. exact Hptr3.
  - intros Hfind3.
    destruct (get_self_linked BlockCap_pos w
                {| first_ := <[k := b3]> (first_ p2);
                   total_block_ := total_block_ p2 |}
                h k b3 i Hk3 Hself3 Hfind3)
      as (b4 & Hget4 & Haddr4 & _ & Hslot4).
    rewrite Hptr3 in Hget4. eexists. split; [exact Hget4|].
    exists k, i, b4. eexists. simpl.
    split; [apply list_lookup_insert_eq; eapply lookup_lt_Some, Hk3|].
    split; [exact Hi|]. split; [exact Hslot4|]. split; [reflexivity|].
    rewrite <- Hptr3. symmetry. apply mem_addr_addr, Haddr4.
Qed.

(** X10. [addBlock] is not safe against [std::bad_alloc]: when [new]
    throws after some blocks were added, those blocks stay in front of the
    list, but [total_block_] keeps its old value, so it no longer counts
    the blocks of the list. *)
Theorem addBlock_bad_alloc_leaves_counter_stale n p h p' h' :
  addBlock n p h = Throw bad_alloc p' h' ->
  0 < n /\ total_block_ p' = total_block_ p /\
  heap_new sizeof_MemoryBlock h' = None /\
  exists news,
    first_ p' = news ++ first_ p /\ Z.of_nat (length news) < n /\
    Forall fully_free news /\
    (total_block_ p = Z.of_nat (length (first_ p)) -> news <> [] ->
     total_block_ p' < Z.of_nat (length (first_ p'))).
Proof.
  unfold addBlock. destruct (Z.ltb_spec 0 n) as [Hn|]; [|discriminate].
  destruct (addBlock_loop _ _ _) as [[blocks h1]|[blocks h1]] eqn:Hloop;
    [discriminate|].
  intros [= <- <-]. cbn [first_ total_block_].
  destruct (addBlock_loop_inr BlockCap_fits _ _ _ _ _ Hloop)
    as (news & -> & Hlen & Hfree & Hnone).
  split; [exact Hn|]. split; [reflexivity|]. split; [exact Hnone|].
  exists news. split; [reflexivity|]. split; [lia|]. split; [exact Hfree|].
  intros Htotal Hne. rewrite length_app, Htotal.
  destruct news; [congruence|simpl length; lia].
Qed.

(** X11. The destructor gives every block of the list back to the free
    store and touches no other allocation: afterwards the list is empty,
    an allocation is live exactly if it was live before and is not at the
    address of a block of the pool.  [total_block_] is not reset. *)
Theorem destructor_frees_exactly_the_blocks p h p' h' :
  ObjectPool_dtor p h = (p', h') ->
  first_ p' = [] /\ total_block_ p' = total_block_ p /\
  (forall e, e ∈ heap_live h' <->
             e ∈ heap_live h /\ forall b, b ∈ first_ p -> addr b <> e.1) /\
  (forall b, b ∈ first_ p -> ~ block_live h' b).
Proof.
  unfold ObjectPool_dtor. rewrite dtor_loop_deletes_all.
  intros [= <- <-]. cbn [first_ total_block_].
  split; [reflexivity|]. split; [reflexivity|]. split.
  - intros e. apply delete_all_live.
  - intros b Hb (_ & _ & Hin). apply delete_all_live in Hin as [_ Hne].
    apply (Hne b Hb). reflexivity.
Qed.

(** X12. In a well-formed pool an address names at most one slot and
    holds at most one object. *)
Theorem address_names_one_slot p h ptr :
  pool_ok p h ->
  (forall k i k' i', live_at p ptr k i -> live_at p ptr k' i' ->
                     k = k' /\ i = i') /\
  (forall v w, object_at p ptr v -> object_at p ptr w -> v = w).
Proof.
  intros Hok. split.
  - intros k i k' i' (b & Hk & Hi & _ & Hptr) (b' & Hk' & Hi' & _ & Hptr').
    apply (slot_unique BlockCap_pos ObjectSize_pos p h k k' b b' i i');
      try assumption. congruence.
  - intros v w (k & i & b & u & Hk & Hi & Hu & Hv & Hptr)
               (k' & i' & b' & u' & Hk' & Hi' & Hu' & Hw & Hptr').
    destruct (slot_unique BlockCap_pos ObjectSize_pos p h k k' b b' i i'
                Hok Hk Hk' Hi Hi' ltac:(congruence)) as [<- <-].
    assert (b' = b) as -> by congruence. congruence.
Qed.

End Coverage.

(** * The further properties at the pools of the scenarios *)

Lemma example_object_at : object_at example_pool 4107 example_object.
Proof.
  exists 0%nat, 0, example_block. eexists.
  split; [reflexivity|].
  split; [exact (conj (Z.le_refl 0) example_BlockCap_pos)|].
  split; [reflexivity|]. split; reflexivity.
Qed.

Lemma example_live_at : live_at example_pool 4107 0 0.
Proof.
  exists example_block. split; [reflexivity|].
  split; [exact (conj (Z.le_refl 0) example_BlockCap_pos)|].
  split; [|reflexivity]. eexists _, _. split; reflexivity.
Qed.

Lemma two_block_pool_reachable :
  reachable (AL := top_heap) two_block_pool two_block_heap.
Proof.
  eapply (reach_get example_object 4155);
    [eapply (reach_ctor 2 empty_heap)|]; reflexivity.
Qed.

Lemma two_block_object_at : object_at two_block_pool 4155 example_object.
Proof.
  exists 0%nat, 0, two_block_head. eexists.
  split; [reflexivity|].
  split; [exact (conj (Z.le_refl 0) example_BlockCap_pos)|].
  split; [reflexivity|]. split; reflexivity.
Qed.

Lemma example_release_once :
  release 4107 example_pool example_heap = Ok () released_pool example_heap.
Proof. reflexivity. Qed.

Lemma example_release_twice :
  release 4107 released_pool example_heap =
  Ok () twice_released_pool example_heap.
Proof. reflexivity. Qed.

(** X1 at [example_pool]. *)
Lemma reachable_pool_counts_its_blocks_witness :
  total_block_ example_pool = Z.of_nat (length (first_ example_pool)) /\
  total_block_ example_pool * @sizeof_MemoryBlock example_params <= 2 ^ 64.
Proof.
  destruct (@reachable_pool_counts_its_blocks example_params top_heap
              top_heap_laws example_BlockCap_pos example_BlockCap_fits
              example_ObjectSize_pos example_pool example_heap
              example_pool_reachable) as (Htotal & Hfit & _).
  split; assumption.
Defined.

(** X2 at the block of [example_pool]: one object, [used] is 1. *)
Lemma used_counts_live_objects_witness :
  used example_block = live_count example_block.
Proof.
  exact (@used_counts_live_objects example_params top_heap top_heap_laws
           example_BlockCap_pos example_BlockCap_fits example_ObjectSize_pos
           example_pool example_heap example_block
           example_pool_reachable (list_elem_of_here _ _)).
Defined.

(** X3 at [two_block_pool]: [removeBlock(1)] removes the empty tail block
    and the object at 4155 stays. *)
Lemma block_count_operations_keep_objects_witness :
  object_at {| first_ := [two_block_head]; total_block_ := 1 |}
            4155 example_object.
Proof.
  exact (@block_count_operations_keep_objects example_params top_heap
           top_heap_laws example_BlockCap_pos example_BlockCap_fits
           example_ObjectSize_pos two_block_pool two_block_heap
           {| first_ := [two_block_head]; total_block_ := 1 |}
           ([(4144, 48)] : @Heap top_heap) 4155 example_object
           two_block_pool_reachable two_block_object_at
           (or_intror (or_introl (ex_intro _ 1 (ex_intro _ 1 eq_refl))))).
Defined.

(** X4 at [two_block_pool]: [removeBlock(2)] finds one empty block only. *)
Lemma removeBlock_removes_as_many_as_possible_witness :
  count_empty [two_block_head] = count_empty (first_ two_block_pool) - 1 /\
  Forall (fun b => used b <> 0) [two_block_head].
Proof.
  destruct (@removeBlock_removes_as_many_as_possible example_params top_heap
              2 1 two_block_pool two_block_heap
              {| first_ := [two_block_head]; total_block_ := 1 |}
              ([(4144, 48)] : @Heap top_heap)
              ltac:(reflexivity) eq_refl ltac:(reflexivity) eq_refl)
    as (_ & Hcount & Hnone).
  split; [exact Hcount|]. apply Hnone. reflexivity.
Defined.

(** X5 at [two_block_pool]: [resize(0)] stops at the block in use. *)
Lemma resize_reaches_target_or_keeps_used_blocks_witness :
  resize 0 two_block_pool two_block_heap =
  Ok 1 {| first_ := [two_block_head]; total_block_ := 1 |}
     ([(4144, 48)] : @Heap top_heap).
Proof.
  exact (proj1 (proj2 (proj2
    (@resize_reaches_target_or_keeps_used_blocks example_params top_heap
       example_BlockCap_fits 0 two_block_pool two_block_heap
       (conj (Z.le_refl 0) eq_refl) eq_refl ltac:(reflexivity)))
    ltac:(reflexivity))).
Defined.

(** X6 at [example_pool]: the next [get] returns 4116, not 4107. *)
Lemma get_returns_unused_address_witness :
  exists p',
    get other_object example_pool example_heap = Ok 4116 p' example_heap /\
    object_at p' 4116 other_object /\ object_at p' 4107 example_object.
Proof.
  eexists. split; [reflexivity|].
  destruct (@get_returns_unused_address example_params top_heap top_heap_laws
              example_BlockCap_pos example_BlockCap_fits example_ObjectSize_pos
              other_object example_pool example_heap 4116 _ example_heap
              example_pool_ok eq_refl) as [Hnew Hold].
  split; [exact Hnew|]. exact (proj2 (Hold 4107 example_object example_object_at)).
Defined.

(** X7 at [example_pool]: after [release] the handle 4107 is dead. *)
Lemma release_ends_only_its_object_witness :
  pool_ok released_pool example_heap /\ ~ live_handle released_pool 4107.
Proof.
  destruct (@release_ends_only_its_object example_params top_heap
              example_BlockCap_pos example_BlockCap_fits example_ObjectSize_pos
              example_pool example_heap 4107 released_pool example_heap
              example_pool_ok (ex_intro _ 0%nat (ex_intro _ 0 example_live_at))
              example_release_once) as (Hok & Hdead & _).
  split; assumption.
Defined.

(** X8 at [example_pool]: 4107 released twice. *)
Lemma double_release_corrupts_free_list_witness :
  release 4107 released_pool example_heap =
    Ok () twice_released_pool example_heap /\
  ~ pool_ok twice_released_pool example_heap.
Proof.
  split; [exact example_release_twice|].
  exact (proj1
    (@double_release_corrupts_free_list example_params top_heap
       example_BlockCap_pos example_BlockCap_fits example_ObjectSize_pos
       example_pool example_heap 4107 0%nat 0 released_pool twice_released_pool
       example_pool_ok example_live_at
       example_release_once example_release_twice)).
Defined.

(** X9 at [example_pool]: after the double release two calls of [get]
    both return 4107. *)
Lemma double_release_makes_get_repeat_address_witness :
  exists p3 p4,
    get example_object twice_released_pool example_heap = Ok 4107 p3 example_heap /\
    get other_object p3 example_heap = Ok 4107 p4 example_heap /\
    object_at p4 4107 other_object.
Proof.
  destruct (@double_release_makes_get_repeat_address example_params top_heap
              example_BlockCap_pos example_BlockCap_fits example_ObjectSize_pos
              example_pool example_heap 4107 0%nat 0
              released_pool twice_released_pool example_object other_object
              example_pool_ok example_live_at
              example_release_once example_release_twice eq_refl)
    as (p3 & Hget3 & _ & Hnext).
  assert (Hp3 : get example_object twice_released_pool example_heap =
                Ok 4107
                   {| first_ := [ {| addr := 4096; first := 0; used := 0;
                                     units := [ {| next := 0; mem := Some example_object |};
                                                {| next := 2; mem := None |};
                                                {| next := 3; mem := None |};
                                                {| next := 4; mem := None |} ] |} ];
                      total_block_ := 1 |} example_heap) by reflexivity.
  rewrite Hp3 in Hget3. injection Hget3 as <-.
  destruct (Hnext eq_refl) as (p4 & Hget4 & Hobj4).
  eexists _, p4. split; [exact Hp3|]. split; [exact Hget4|exact Hobj4].
Defined.

(** X10 at the crowded free store: [addBlock(2)] gets one block, then
    [new] throws; the list has one block and the counter says 0. *)
Lemma addBlock_bad_alloc_leaves_counter_stale_witness :
  exists p' h',
    addBlock (PP := example_params) 2
      {| first_ := []; total_block_ := 0 |} crowded_heap
    = Throw bad_alloc p' h' /\
    total_block_ p' = 0 /\ first_ p' <> [] /\
    total_block_ p' < Z.of_nat (length (first_ p')).
Proof.
  eexists _, _. split; [reflexivity|].
  destruct (@addBlock_bad_alloc_leaves_counter_stale example_params top_heap
              example_BlockCap_fits 2
              {| first_ := []; total_block_ := 0 |} crowded_heap _ _ eq_refl)
    as (_ & Htotal & _ & news & Hfirst & _ & _ & Hstale).
  split; [exact Htotal|]. split; [discriminate|].
  apply Hstale; [reflexivity|]. intros ->. discriminate Hfirst.
Defined.

(** X11 at [example_pool]: after the destructor its block is not live. *)
Lemma destructor_frees_exactly_the_blocks_witness :
  ObjectPool_dtor example_pool example_heap =
    ({| first_ := []; total_block_ := 1 |}, empty_heap) /\
  ~ block_live (AL := top_heap) empty_heap example_block.
Proof.
  split; [reflexivity|].
  exact (proj2 (proj2 (proj2
    (@destructor_frees_exactly_the_blocks example_params top_heap top_heap_laws
       example_pool example_heap
       {| first_ := []; total_block_ := 1 |} empty_heap eq_refl)))
    example_block (list_elem_of_here _ _)).
Defined.

(** X12 at [example_pool]: the address 4107 holds [example_object] and
    no other object. *)
Lemma address_names_one_slot_witness :
  object_at example_pool 4107 example_object /\
  ~ object_at example_pool 4107 other_object.
Proof.
  split; [exact example_object_at|]. intros Hother.
  pose proof (proj2
    (@address_names_one_slot example_params top_heap
       example_BlockCap_pos example_ObjectSize_pos
       example_pool example_heap 4107 example_pool_ok)
    example_object other_object example_object_at Hother) as Heq.
  discriminate Heq.
Defined.
